(** * duckdb-sleep: the [sleep], [sleep_for] and [sleep_until] scalar functions

    A shallow embedding of [src/sleep_extension.cpp].

    - C++ [double] is IEEE 754 binary64, embedded as [spec_float] with
      [prec = 53] and [emax = 1024]; every arithmetic operation and every
      comparison of the source is the corresponding rounding operation of
      [SpecFloat].
    - [int32_t]/[int64_t] values are [Z]; the one integer operation of the
      source that can leave its type (the timestamp subtraction) has its
      wrap-around written out.
    - The client context, the two clocks and the calls of
      [std::this_thread::sleep_for] are an explicit [World] threaded
      through every function; exceptions are an [outcome]. *)

From Stdlib Require Import ZArith Lia Bool List String.
From Stdlib Require Import SpecFloat.
Import ListNotations.

Local Open Scope Z_scope.

(** ** IEEE 754 binary64 *)

Module Binary64.

Definition prec : Z := 53.
Definition emax : Z := 1024.

Definition double : Type := spec_float.

(** [static_cast<double>(n)] for an integer [n]: round to nearest, ties
    to even. *)
Definition of_int (n : Z) : double := binary_normalize prec emax n 0 false.

Definition zero : double := S754_zero false.
Definition pinf : double := S754_infinity false.
Definition ninf : double := S754_infinity true.
Definition nan : double := S754_nan.

(** [std::isnan] and [std::isinf]. *)
Definition isnan (x : double) : bool :=
  match x with S754_nan => true | _ => false end.

Definition isinf (x : double) : bool :=
  match x with S754_infinity _ => true | _ => false end.

Definition add : double -> double -> double := SFadd prec emax.
Definition sub : double -> double -> double := SFsub prec emax.
Definition mul : double -> double -> double := SFmul prec emax.
Definition div : double -> double -> double := SFdiv prec emax.

(** The comparison operators [<], [<=], [==] of C++ on doubles: all
    false as soon as one side is NaN. *)
Definition ltb : double -> double -> bool := SFltb.
Definition leb : double -> double -> bool := SFleb.
Definition eqb : double -> double -> bool := SFeqb.

(** [std::max(a, b)] is [(a < b) ? b : a] and [std::min(a, b)] is
    [(b < a) ? b : a]. *)
Definition max (a b : double) : double := if ltb a b then b else a.
Definition min (a b : double) : double := if ltb b a then b else a.

(** Neither NaN nor infinite. *)
Definition is_finite (x : double) : bool :=
  match x with S754_zero _ | S754_finite _ _ _ => true | _ => false end.

(** The sign bit, for the values that have one. *)
Definition signbit (x : double) : bool :=
  match x with
  | S754_zero s | S754_infinity s | S754_finite s _ _ => s
  | S754_nan => false
  end.

(** A genuine binary64 value: a finite number is in canonical form. *)
Definition valid_double (x : double) : Prop := valid_binary prec emax x = true.

(** Zero or finite, with sign bit [s]. *)
Definition finite_signed (s : bool) (x : double) : Prop :=
  match x with
  | S754_zero s' | S754_finite s' _ _ => s' = s
  | _ => False
  end.

(** Not NaN, with sign bit [s]. *)
Definition rounded_signed (s : bool) (x : double) : Prop :=
  match x with
  | S754_zero s' | S754_finite s' _ _ | S754_infinity s' => s' = s
  | S754_nan => False
  end.

(** Zero, or finite with magnitude strictly below [2 ^ B]. *)
Definition below (B : Z) (x : double) : Prop :=
  match x with
  | S754_zero _ => True
  | S754_finite _ m e => Zdigits2 (Zpos m) + e <= B
  | _ => False
  end.

End Binary64.

Import Binary64.

(** ** Fixed-width integers *)

Definition INT32_MIN : Z := - 2 ^ 31.
Definition INT32_MAX : Z := 2 ^ 31 - 1.
Definition INT64_MIN : Z := - 2 ^ 63.
Definition INT64_MAX : Z := 2 ^ 63 - 1.

Definition int32_range (z : Z) : Prop := INT32_MIN <= z <= INT32_MAX.
Definition int64_range (z : Z) : Prop := INT64_MIN <= z <= INT64_MAX.

(** Two's complement wrap-around into [int64_t]. *)
Definition wrap64 (z : Z) : Z := (z + 2 ^ 63) mod 2 ^ 64 - 2 ^ 63.

(** [a - b] on [int64_t]. *)
Definition sub64 (a b : Z) : Z := wrap64 (a - b).

(** ** Constants *)

(** [static constexpr double MAX_SLEEP_SECONDS = 3600.0] *)
Definition MAX_SLEEP_SECONDS : double := Eval vm_compute in of_int 3600.

(** [static constexpr int64_t CHECK_INTERVAL_MS = 100] *)
Definition CHECK_INTERVAL_MS : Z := 100.

(** The literals [86400.0], [2592000.0] and [1000000.0]. *)
Definition lit_86400 : double := Eval vm_compute in of_int 86400.
Definition lit_2592000 : double := Eval vm_compute in of_int 2592000.
Definition lit_1000000 : double := Eval vm_compute in of_int 1000000.

(** ** Exceptions and outcomes *)

Inductive Exception : Type :=
| InvalidInputException (msg : string)
| InterruptException.

Inductive outcome (A : Type) : Type :=
| Returned (a : A)
| Thrown (e : Exception).

Arguments Returned {A} a.
Arguments Thrown {A} e.

(** ** The world a call runs in

    [steady] is the reading of [std::chrono::steady_clock] in nanoseconds
    (its [rep] is a 64-bit count of nanoseconds).  [wall_offset] is the
    distance, in microseconds, between the steady clock and the
    microsecond wall clock read by [Timestamp::GetCurrentTimestamp].
    [interrupt_at] is the steady-clock instant at which the host sets
    [context.interrupted] ([None]: it never does); the flag is written by
    the host only.  [slept] is the log of the arguments of
    [std::this_thread::sleep_for], most recent first.

    Time is idealised: only [sleep_for] lets time pass, and it lets pass
    exactly the requested duration rounded up to a whole clock tick. *)

Record World : Type := mkWorld {
  steady : Z;
  wall_offset : Z;
  interrupt_at : option Z;
  slept : list double
}.

(** [context.interrupted] *)
Definition interrupted (w : World) : bool :=
  match interrupt_at w with
  | Some t => t <=? steady w
  | None => false
  end.

(** [std::chrono::steady_clock::now().time_since_epoch().count()] *)
Definition steady_now (w : World) : Z := steady w.

(** [Timestamp::GetCurrentTimestamp().value] *)
Definition GetCurrentTimestamp (w : World) : Z := wall_offset w + steady w / 1000.

(** Whole nanoseconds covering a non-negative [double] count of
    nanoseconds (rounded up). *)
Definition ticks_of (d : double) : Z :=
  match d with
  | S754_finite false m e =>
      if 0 <=? e then Zpos m * 2 ^ e
      else (Zpos m + 2 ^ (- e) - 1) / 2 ^ (- e)
  | _ => 0
  end.

(** [std::this_thread::sleep_for(d)], [d] a [duration<double, std::nano>]. *)
Definition sleep_for (d : double) (w : World) : World :=
  {| steady := steady w + ticks_of d;
     wall_offset := wall_offset w;
     interrupt_at := interrupt_at w;
     slept := d :: slept w |}.

(** A computation: [None] when the fuel of a loop ran out, otherwise an
    outcome and the world it left. *)
Definition Exec (A : Type) : Type := World -> option (outcome A * World).

Definition ret {A} (a : A) : Exec A := fun w => Some (Returned a, w).
Definition throw {A} (e : Exception) : Exec A := fun w => Some (Thrown e, w).

Definition bind {A B} (c : Exec A) (k : A -> Exec B) : Exec B :=
  fun w =>
    match c w with
    | Some (Returned a, w') => k a w'
    | Some (Thrown e, w') => Some (Thrown e, w')
    | None => None
    end.

Declare Scope exec_scope.
Delimit Scope exec_scope with exec.
Notation "c1 ;; c2" := (bind c1 (fun _ => c2))
  (at level 61, right associativity) : exec_scope.

(** ** Helper functions *)

(** [CheckInterruption] *)
Definition CheckInterruption : Exec unit :=
  fun w => if interrupted w then throw InterruptException w else ret tt w.

(** The result of the validation and clamping at the head of
    [PerformSleep]: the exception it throws, its early [return], or the
    value of [seconds] with which the polling loop is entered. *)
Inductive Normalized : Type :=
| Rejected (e : Exception)
| ReturnEarly
| SleepFor (seconds : double).

(** [PerformSleep], from the NaN check to the cap at the maximum. *)
Definition NormalizeSeconds (seconds : double) : Normalized :=
  if isnan seconds then
    Rejected (InvalidInputException "Sleep duration cannot be NaN")
  else
    let seconds := if isinf seconds then MAX_SLEEP_SECONDS else seconds in
    if leb seconds zero then ReturnEarly
    else
      let seconds :=
        if ltb MAX_SLEEP_SECONDS seconds then MAX_SLEEP_SECONDS else seconds in
      SleepFor seconds.

(** The length of the wait a call is committed to, in seconds: the early
    return waits for no time at all. *)
Definition effective_wait (n : Normalized) : option double :=
  match n with
  | Rejected _ => None
  | ReturnEarly => Some zero
  | SleepFor s => Some s
  end.

(** The clamp and pass-through rules as the specification words them
    (positive infinity becomes the ceiling; a value [<= 0] is a wait of
    length zero; a value above the ceiling is the ceiling; any other
    value is kept). *)
Definition clamp_rules (v : double) : double :=
  let v := match v with S754_infinity false => MAX_SLEEP_SECONDS | _ => v end in
  if leb v zero then zero
  else if ltb MAX_SLEEP_SECONDS v then MAX_SLEEP_SECONDS
  else v.

(** [std::chrono::duration<double>(seconds)] added to a time point of the
    steady clock: both sides are converted to
    [duration<double, std::nano>]. *)
Definition lit_1e9 : double := Eval vm_compute in of_int 1000000000.

Definition end_time_of (now : Z) (seconds : double) : double :=
  add (of_int now) (mul seconds lit_1e9).

(** [std::chrono::milliseconds(CHECK_INTERVAL_MS)] as a
    [duration<double, std::nano>]. *)
Definition check_interval : double := mul (of_int CHECK_INTERVAL_MS) lit_1000000.

(** One pass through the body of the polling loop after the interrupt
    check: the slice to sleep for, and the world after sleeping it. *)
Definition sleep_duration_of (end_time : double) (w : World) : double :=
  let remaining := sub end_time (of_int (steady_now w)) in
  if ltb remaining check_interval then remaining else check_interval.

Definition sleep_slice (end_time : double) (w : World) : World :=
  let sleep_duration := sleep_duration_of end_time w in
  if ltb zero sleep_duration then sleep_for sleep_duration w else w.

(** The polling loop of [PerformSleep]. *)
Fixpoint PerformSleep_loop (fuel : nat) (end_time : double) : Exec unit :=
  fun w =>
    match fuel with
    | O => None
    | S fuel' =>
        if ltb (of_int (steady_now w)) end_time then
          (CheckInterruption ;;
           (fun w => PerformSleep_loop fuel' end_time (sleep_slice end_time w)))%exec w
        else ret tt w
    end.

(** [PerformSleep] *)
Definition PerformSleep (fuel : nat) (seconds : double) : Exec unit :=
  fun w =>
    match NormalizeSeconds seconds with
    | Rejected e => throw e w
    | ReturnEarly => ret tt w
    | SleepFor seconds =>
        let end_time := end_time_of (steady_now w) seconds in
        PerformSleep_loop fuel end_time w
    end.

(** The world after [n] passes through the body of the polling loop. *)
Fixpoint after_slices (n : nat) (end_time : double) (w : World) : World :=
  match n with
  | O => w
  | S n' => after_slices n' end_time (sleep_slice end_time w)
  end.

(** ** Columns of the host engine *)

(** A flattened input column: per row, [None] when the validity mask
    marks the row NULL, otherwise the row's datum. *)
Definition Column (A : Type) : Type := list (option A).

Inductive VectorType : Type := FLAT_VECTOR | CONSTANT_VECTOR.

(** The result vector (logical type [SQLNULL]): its vector type, the
    validity mask used while it is flat, and the NULL flag of its single
    entry used once it is constant. *)
Record Vector : Type := mkVector {
  vector_type : VectorType;
  flat_validity : list bool;
  constant_null : bool
}.

(** [result.SetVectorType(t)] *)
Definition SetVectorType (t : VectorType) (v : Vector) : Vector :=
  {| vector_type := t;
     flat_validity := flat_validity v;
     constant_null := constant_null v |}.

(** [ConstantVector::SetNull(result, is_null)] *)
Definition SetNull (is_null : bool) (v : Vector) : Vector :=
  {| vector_type := vector_type v;
     flat_validity := flat_validity v;
     constant_null := is_null |}.

(** Whether row [i] of a vector reads as NULL. *)
Definition RowIsNull (v : Vector) (i : nat) : bool :=
  match vector_type v with
  | CONSTANT_VECTOR => constant_null v
  | FLAT_VECTOR => negb (nth i (flat_validity v) true)
  end.

(** [interval_t] *)
Record interval_t : Type := mkInterval {
  months : Z;
  days : Z;
  micros : Z
}.

Definition interval_wf (i : interval_t) : Prop :=
  int32_range (months i) /\ int32_range (days i) /\ int64_range (micros i).

(** [timestamp_t]: microseconds since the epoch. *)
Record timestamp_t : Type := mkTimestamp { value : Z }.

(** ** Function implementations *)

(** The row loop the three functions share:
    [for (i = 0; i < args.size(); i++) { if (!validity.RowIsValid(i)) continue; body }]. *)
Fixpoint for_each_row {A} (body : A -> Exec unit) (rows : Column A) : Exec unit :=
  match rows with
  | [] => ret tt
  | None :: rest => for_each_row body rest
  | Some x :: rest => (body x ;; for_each_row body rest)%exec
  end.

(** The tail of the three functions: the result becomes a constant NULL. *)
Definition return_null (result : Vector) : Exec Vector :=
  ret (SetNull true (SetVectorType CONSTANT_VECTOR result)).

(** [SleepFunction] *)
Definition SleepFunction (fuel : nat) (args : Column double) (result : Vector)
  : Exec Vector :=
  (for_each_row (PerformSleep fuel) args ;;
   return_null result)%exec.

(** The conversion of an interval to seconds in [SleepForFunction]. *)
Definition interval_seconds (interval : interval_t) : double :=
  add (add (mul (of_int (days interval)) lit_86400)
           (mul (of_int (months interval)) lit_2592000))
      (div (of_int (micros interval)) lit_1000000).

(** [SleepForFunction] *)
Definition SleepForFunction (fuel : nat) (args : Column interval_t) (result : Vector)
  : Exec Vector :=
  (for_each_row
     (fun interval =>
        let total_seconds := interval_seconds interval in
        PerformSleep fuel total_seconds) args ;;
   return_null result)%exec.

(** The body of the row loop of [SleepUntilFunction]. *)
Definition SleepUntil_row (fuel : nat) (target_timestamp : timestamp_t) : Exec unit :=
  fun w =>
    let current_timestamp := GetCurrentTimestamp w in
    if value target_timestamp =? INT64_MIN then ret tt w
    else if value target_timestamp =? INT64_MAX then
      PerformSleep fuel MAX_SLEEP_SECONDS w
    else
      let diff_micros := sub64 (value target_timestamp) current_timestamp in
      let seconds := div (of_int diff_micros) lit_1000000 in
      PerformSleep fuel seconds w.

(** [SleepUntilFunction] *)
Definition SleepUntilFunction (fuel : nat) (args : Column timestamp_t) (result : Vector)
  : Exec Vector :=
  (for_each_row (SleepUntil_row fuel) args ;; return_null result)%exec.

(** ** Reading results *)

(** A row of an input column that is not NULL. *)
Definition is_valid_row {A} (r : option A) : bool :=
  match r with Some _ => true | None => false end.

(** A call that returned handed back a vector that is NULL at every row. *)
Definition returns_all_null (r : option (outcome Vector * World)) : Prop :=
  match r with
  | Some (Returned v, _) => forall i : nat, RowIsNull v i = true
  | _ => True
  end.

(** A fuelled computation completes with [r] from [w]: every
    sufficiently large amount of fuel gives [r]. *)
Definition completes {A} (c : nat -> Exec A) (w : World) (r : outcome A * World) : Prop :=
  exists fuel0 : nat, forall fuel : nat, (fuel0 <= fuel)%nat -> c fuel w = Some r.

(** Every non-NULL row of a column of doubles is a genuine binary64
    value. *)
Definition valid_column (rows : Column double) : Prop :=
  Forall (fun r => match r with Some x => valid_double x | None => True end) rows.

(** [w'] is [w] after some calls of [std::this_thread::sleep_for], each
    with a strictly positive argument of at most the check interval:
    the log has grown by these calls, the steady clock has not gone
    back, and the interrupt schedule and the wall clock offset are as
    they were. *)
Definition slept_on (w w' : World) : Prop :=
  exists slices : list double,
    slept w' = slices ++ slept w /\
    Forall (fun d => ltb zero d = true /\ ltb check_interval d = false) slices /\
    steady w <= steady w' /\
    interrupt_at w' = interrupt_at w /\
    wall_offset w' = wall_offset w.

(** Every non-NULL row of a column of doubles is not NaN. *)
Definition nan_free (rows : Column double) : Prop :=
  Forall (fun r => match r with Some x => isnan x = false | None => True end) rows.

(** Every non-NULL row of a column of intervals has fields of the widths
    of [interval_t]. *)
Definition wf_intervals (rows : Column interval_t) : Prop :=
  Forall (fun r => match r with Some i => interval_wf i | None => True end) rows.

(** ** Sample values *)

(** A quarter of a second, and a vector not yet written to. *)
Definition quarter_second : double := Eval vm_compute in div (of_int 1) (of_int 4).

Definition fresh_vector (n : nat) : Vector :=
  {| vector_type := FLAT_VECTOR; flat_validity := repeat true n; constant_null := false |}.

(** * Facts about binary64 rounding *)

Module Binary64Facts.

Local Abbreviation fexp := (SpecFloat.fexp prec emax).
Local Abbreviation emin := (SpecFloat.emin prec emax).
Local Abbreviation bra := (binary_round_aux prec emax).

(** *** Number of binary digits *)

Lemma digits2_pos_lower (p : positive) :
  2 ^ (Zpos (digits2_pos p) - 1) <= Zpos p.
Proof.
  induction p as [p IH | p IH |]; cbn [digits2_pos].
  - rewrite Pos2Z.inj_succ.
    replace (Z.succ (Zpos (digits2_pos p)) - 1) with (Z.succ (Zpos (digits2_pos p) - 1)) by lia.
    rewrite Z.pow_succ_r by lia. lia.
  - rewrite Pos2Z.inj_succ.
    replace (Z.succ (Zpos (digits2_pos p)) - 1) with (Z.succ (Zpos (digits2_pos p) - 1)) by lia.
    rewrite Z.pow_succ_r by lia. lia.
  - simpl. lia.
Qed.

Lemma digits2_pos_upper (p : positive) :
  Zpos p < 2 ^ Zpos (digits2_pos p).
Proof.
  induction p as [p IH | p IH |]; cbn [digits2_pos].
  - rewrite Pos2Z.inj_succ, Z.pow_succ_r by lia. lia.
  - rewrite Pos2Z.inj_succ, Z.pow_succ_r by lia. lia.
  - simpl. lia.
Qed.

Lemma Zdigits2_nonneg (m : Z) : 0 <= Zdigits2 m.
Proof. destruct m; simpl; lia. Qed.

Lemma Zdigits2_pos (p : positive) : 1 <= Zdigits2 (Zpos p).
Proof. simpl. lia. Qed.

(** A number below [2 ^ k] has at most [k] digits. *)
Lemma Zdigits2_le (m k : Z) :
  0 <= m -> 0 <= k -> m < 2 ^ k -> Zdigits2 m <= k.
Proof.
  intros Hm Hk Hlt. destruct m as [|p|p]; simpl; try lia.
  destruct (Z_le_gt_dec (Zpos (digits2_pos p)) k) as [H|H]; [exact H|].
  pose proof (digits2_pos_lower p) as Hlow.
  assert (2 ^ k <= 2 ^ (Zpos (digits2_pos p) - 1)) by (apply Z.pow_le_mono_r; lia).
  lia.
Qed.

Lemma Zdigits2_upper (m : Z) : 0 <= m -> m < 2 ^ Zdigits2 m.
Proof.
  intros Hm. destruct m as [|p|p]; try lia.
  - simpl. lia.
  - apply digits2_pos_upper.
Qed.

Lemma Zdigits2_mono (a b : Z) : 0 <= a <= b -> Zdigits2 a <= Zdigits2 b.
Proof.
  intros H. apply Zdigits2_le; try lia.
  - apply Zdigits2_nonneg.
  - pose proof (Zdigits2_upper b). lia.
Qed.

Lemma Zdigits2_succ (m : Z) : 0 <= m -> Zdigits2 (m + 1) <= Zdigits2 m + 1.
Proof.
  intros Hm. apply Zdigits2_le; try lia.
  - pose proof (Zdigits2_nonneg m). lia.
  - pose proof (Zdigits2_upper m Hm) as Hu.
    rewrite Z.pow_add_r by (try apply Zdigits2_nonneg; lia).
    pose proof (Z.pow_pos_nonneg 2 (Zdigits2 m)) as Hp.
    pose proof (Zdigits2_nonneg m).
    change (2 ^ 1) with 2. lia.
Qed.

Lemma Zdigits2_mul (a b : Z) :
  0 <= a -> 0 <= b -> Zdigits2 (a * b) <= Zdigits2 a + Zdigits2 b.
Proof.
  intros Ha Hb.
  pose proof (Zdigits2_nonneg a). pose proof (Zdigits2_nonneg b).
  apply Zdigits2_le; try lia.
  rewrite Z.pow_add_r by lia.
  pose proof (Zdigits2_upper a Ha). pose proof (Zdigits2_upper b Hb).
  nia.
Qed.

Lemma Zdigits2_shift (a s : Z) :
  0 <= a -> 0 <= s -> Zdigits2 (a * 2 ^ s) <= Zdigits2 a + s.
Proof.
  intros Ha Hs.
  pose proof (Zdigits2_nonneg a).
  apply Zdigits2_le; try lia.
  rewrite Z.pow_add_r by lia.
  pose proof (Zdigits2_upper a Ha).
  pose proof (Z.pow_pos_nonneg 2 s). nia.
Qed.

Lemma digits2_pos_iter_xO (d p : positive) :
  Zpos (digits2_pos (Pos.iter xO p d)) = Zpos (digits2_pos p) + Zpos d.
Proof.
  induction d as [|d IH] using Pos.peano_ind.
  - simpl. lia.
  - rewrite Pos.iter_succ. cbn [digits2_pos]. lia.
Qed.

(** *** Right shifts and rounding of a non-negative mantissa *)

Lemma shr_1_spec (mrs : shr_record) :
  0 <= shr_m mrs ->
  0 <= shr_m (shr_1 mrs) /\
  Zdigits2 (shr_m (shr_1 mrs)) = Z.max 0 (Zdigits2 (shr_m mrs) - 1).
Proof.
  destruct mrs as [m r s]. cbn [shr_m]. intros Hm.
  destruct m as [|p|p]; [simpl; lia| |lia].
  destruct p as [p|p|]; cbn [shr_1 shr_m Zdigits2 digits2_pos]; lia.
Qed.

Lemma iter_shr_1_spec (n : positive) : forall mrs : shr_record,
  0 <= shr_m mrs ->
  0 <= shr_m (iter_pos shr_1 n mrs) /\
  Zdigits2 (shr_m (iter_pos shr_1 n mrs)) = Z.max 0 (Zdigits2 (shr_m mrs) - Zpos n).
Proof.
  induction n as [n IH | n IH |]; intros mrs Hm; cbn [iter_pos].
  - destruct (shr_1_spec mrs Hm) as [H1 D1].
    destruct (IH _ H1) as [H2 D2].
    destruct (IH _ H2) as [H3 D3].
    split; [exact H3|]. rewrite D3, D2, D1. lia.
  - destruct (IH _ Hm) as [H2 D2].
    destruct (IH _ H2) as [H3 D3].
    split; [exact H3|]. rewrite D3, D2. lia.
  - apply shr_1_spec; exact Hm.
Qed.

Lemma shr_m_of_loc (m : Z) (l : location) : shr_m (shr_record_of_loc m l) = m.
Proof. destruct l as [|[]]; reflexivity. Qed.

(** [shr_fexp] keeps a mantissa non-negative, raises the exponent to the
    one of the format and removes as many digits as it raised it by. *)
Lemma shr_fexp_spec (m e : Z) (l : location) :
  0 <= m ->
  forall mrs e', shr_fexp prec emax m e l = (mrs, e') ->
  0 <= shr_m mrs /\
  e' = Z.max e (fexp (Zdigits2 m + e)) /\
  Zdigits2 (shr_m mrs) = Z.max 0 (Zdigits2 m - (e' - e)).
Proof.
  intros Hm mrs e'. unfold shr_fexp, shr.
  pose proof (Zdigits2_nonneg m) as Hd.
  destruct (fexp (Zdigits2 m + e) - e) as [|n|n] eqn:Hn; intros Heq;
    inversion Heq; subst; clear Heq.
  - rewrite shr_m_of_loc. repeat split; lia.
  - destruct (iter_shr_1_spec n (shr_record_of_loc m l)) as [H1 D1].
    { rewrite shr_m_of_loc; exact Hm. }
    rewrite shr_m_of_loc in D1.
    repeat split; [exact H1 | lia | rewrite D1; lia].
  - rewrite shr_m_of_loc. repeat split; lia.
Qed.

Lemma round_nearest_even_spec (m : Z) (l : location) :
  0 <= m ->
  0 <= round_nearest_even m l /\
  Zdigits2 (round_nearest_even m l) <= Zdigits2 m + 1.
Proof.
  intros Hm. pose proof (Zdigits2_succ m Hm).
  unfold round_nearest_even.
  destruct l as [|[]]; try destruct (Z.even m); split; lia.
Qed.

(** Rounding a non-negative mantissa never yields NaN and keeps the sign. *)
Lemma binary_round_aux_signed (sx : bool) (m e : Z) (l : location) :
  0 <= m -> rounded_signed sx (bra sx m e l).
Proof.
  intros Hm. unfold binary_round_aux.
  destruct (shr_fexp prec emax m e l) as [mrs1 e1] eqn:H1.
  destruct (shr_fexp_spec m e l Hm _ _ H1) as [N1 _].
  destruct (round_nearest_even_spec (shr_m mrs1) (loc_of_shr_record mrs1) N1) as [N2 _].
  destruct (shr_fexp prec emax _ e1 loc_Exact) as [mrs2 e2] eqn:H2.
  destruct (shr_fexp_spec _ e1 loc_Exact N2 _ _ H2) as [N3 _].
  destruct (shr_m mrs2) as [|p|p]; [reflexivity| |lia].
  destruct (e2 <=? emax - prec); reflexivity.
Qed.

(** Rounding a mantissa whose value stays below [2 ^ B], [B] well inside
    the format, does not overflow. *)
Lemma binary_round_aux_below (sx : bool) (m e : Z) (l : location) (B : Z) :
  0 <= m -> e <= emax - prec -> Zdigits2 m + e <= B -> emin <= B -> B < emax ->
  finite_signed sx (bra sx m e l) /\ below (B + 1) (bra sx m e l).
Proof.
  intros Hm He HB Hlo Hhi. unfold binary_round_aux.
  destruct (shr_fexp prec emax m e l) as [mrs1 e1] eqn:H1.
  destruct (shr_fexp_spec m e l Hm _ _ H1) as (N1 & E1 & D1).
  destruct (round_nearest_even_spec (shr_m mrs1) (loc_of_shr_record mrs1) N1) as [N2 D2].
  destruct (shr_fexp prec emax _ e1 loc_Exact) as [mrs2 e2] eqn:H2.
  destruct (shr_fexp_spec _ e1 loc_Exact N2 _ _ H2) as (N3 & E2 & D3).
  pose proof (Zdigits2_nonneg m) as Hd.
  unfold SpecFloat.fexp, SpecFloat.emin, emax, prec in *.
  destruct (shr_m mrs2) as [|p|p] eqn:Hp; [split; reflexivity| |lia].
  pose proof (Zdigits2_pos p) as Hp1.
  replace (e2 <=? 1024 - 53) with true by (symmetry; apply Z.leb_le; lia).
  split; [reflexivity|]. cbn [below]. lia.
Qed.

(** *** Alignment and the rounding of an integer mantissa *)

Lemma shl_align_spec (mx : positive) (ex ex' : Z) :
  forall mz ez, shl_align mx ex ex' = (mz, ez) ->
  ez <= ex /\ Zdigits2 (Zpos mz) + ez = Zdigits2 (Zpos mx) + ex.
Proof.
  intros mz ez. unfold shl_align.
  destruct (ex' - ex) as [|d|d] eqn:Hd; intros Heq; inversion Heq; subst; clear Heq.
  - split; lia.
  - split; lia.
  - cbn [Zdigits2]. rewrite digits2_pos_iter_xO. split; lia.
Qed.

Lemma binary_round_signed (sx : bool) (mx : positive) (ex : Z) :
  rounded_signed sx (binary_round prec emax sx mx ex).
Proof.
  unfold binary_round.
  destruct (shl_align mx ex _) as [mz ez].
  apply binary_round_aux_signed. lia.
Qed.

Lemma binary_round_below (sx : bool) (mx : positive) (ex B : Z) :
  ex <= emax - prec -> Zdigits2 (Zpos mx) + ex <= B -> emin <= B -> B < emax ->
  finite_signed sx (binary_round prec emax sx mx ex) /\
  below (B + 1) (binary_round prec emax sx mx ex).
Proof.
  intros He HB Hlo Hhi. unfold binary_round.
  destruct (shl_align mx ex _) as [mz ez] eqn:Hs.
  destruct (shl_align_spec _ _ _ _ _ Hs) as [Hez Hdz].
  apply binary_round_aux_below; lia.
Qed.

Lemma binary_normalize_not_nan (m e : Z) (sz : bool) :
  isnan (binary_normalize prec emax m e sz) = false.
Proof.
  destruct m as [|p|p]; cbn [binary_normalize]; [reflexivity| |].
  - pose proof (binary_round_signed false p e) as H.
    destruct (binary_round prec emax false p e); simpl in *; tauto.
  - pose proof (binary_round_signed true p e) as H.
    destruct (binary_round prec emax true p e); simpl in *; tauto.
Qed.

(** *** [static_cast<double>] of an integer *)

Lemma of_int_signed (z : Z) : rounded_signed (z <? 0) (of_int z).
Proof.
  unfold of_int. destruct z as [|p|p]; cbn [binary_normalize].
  - reflexivity.
  - apply binary_round_signed.
  - apply binary_round_signed.
Qed.

Lemma of_int_below (z k : Z) :
  0 <= k < emax -> Z.abs z < 2 ^ k ->
  finite_signed (z <? 0) (of_int z) /\ below (k + 1) (of_int z).
Proof.
  intros Hk Hz. unfold of_int. destruct z as [|p|p]; cbn [binary_normalize].
  - split; reflexivity.
  - apply binary_round_below; unfold SpecFloat.emin, emax, prec in *; try lia.
    rewrite Z.add_0_r. apply Zdigits2_le; lia.
  - apply binary_round_below; unfold SpecFloat.emin, emax, prec in *; try lia.
    rewrite Z.add_0_r. apply (Zdigits2_le (Zpos p)); lia.
Qed.

(** *** Products, quotients and sums *)

Lemma mul_below (x y : double) (Bx By : Z) :
  below Bx x -> below By y -> emin <= Bx + By -> Bx + By <= emax - prec ->
  finite_signed (xorb (signbit x) (signbit y)) (mul x y) /\
  below (Bx + By + 1) (mul x y).
Proof.
  intros Hx Hy Hlo Hhi.
  destruct x as [sx|sx| |sx mx ex]; cbn [below] in Hx; try contradiction;
    destruct y as [sy|sy| |sy my ey]; cbn [below] in Hy; try contradiction;
    cbn [mul SFmul signbit]; try (split; reflexivity).
  pose proof (Zdigits2_pos mx). pose proof (Zdigits2_pos my).
  pose proof (Zdigits2_mul (Zpos mx) (Zpos my)) as Hm.
  unfold mul, SFmul. rewrite <- Pos2Z.inj_mul in Hm.
  apply binary_round_aux_below; unfold SpecFloat.emin, emax, prec in *; lia.
Qed.

Lemma SFdiv_core_binary_spec (mx my : positive) (ex ey : Z) :
  forall q e' l,
  SFdiv_core_binary prec emax (Zpos mx) ex (Zpos my) ey = (q, e', l) ->
  0 <= q /\ e' <= ex - ey /\ Zdigits2 q + e' <= Zdigits2 (Zpos mx) + ex - ey.
Proof.
  intros q e' l. unfold SFdiv_core_binary.
  set (e0 := Z.min _ (ex - ey)).
  assert (He0 : e0 <= ex - ey) by (unfold e0; lia).
  set (m' := match ex - ey - e0 with
             | 0 => Zpos mx
             | Zpos _ => Z.shiftl (Zpos mx) (ex - ey - e0)
             | Zneg _ => 0
             end).
  assert (Hm' : 0 <= m' /\ Zdigits2 m' <= Zdigits2 (Zpos mx) + (ex - ey - e0)).
  { unfold m'. destruct (ex - ey - e0) as [|d|d] eqn:Hd; try lia.
    rewrite Z.shiftl_mul_pow2 by lia. split; [lia|].
    apply Zdigits2_shift; lia. }
  destruct Hm' as [Hm0 Hmd].
  pose proof (Z_div_mod m' (Zpos my) eq_refl) as Hdm.
  destruct (Z.div_eucl m' (Zpos my)) as [q0 r0].
  intros Heq; inversion Heq; subst; clear Heq.
  destruct Hdm as [Hq Hr].
  assert (Hq0 : 0 <= q) by nia.
  assert (Hqm : q <= m') by nia.
  pose proof (Zdigits2_mono q m' (conj Hq0 Hqm)).
  repeat split; lia.
Qed.

(** Dividing by a finite non-zero number never yields NaN. *)
Lemma div_signed (x : double) (sy : bool) (my : positive) (ey : Z) :
  isnan x = false ->
  rounded_signed (xorb (signbit x) sy) (div x (S754_finite sy my ey)).
Proof.
  intros Hx. destruct x as [sx|sx| |sx mx ex]; try discriminate;
    cbn [div SFdiv signbit rounded_signed]; try reflexivity.
  unfold div, SFdiv.
  destruct (SFdiv_core_binary prec emax (Zpos mx) ex (Zpos my) ey) as [[q e'] l] eqn:Hc.
  destruct (SFdiv_core_binary_spec _ _ _ _ _ _ _ Hc) as (Hq & _).
  apply binary_round_aux_signed; exact Hq.
Qed.

Lemma div_below (x : double) (sy : bool) (my : positive) (ey B : Z) :
  below B x -> emin <= B - ey -> B - ey <= emax - prec ->
  finite_signed (xorb (signbit x) sy) (div x (S754_finite sy my ey)) /\
  below (B - ey + 1) (div x (S754_finite sy my ey)).
Proof.
  intros Hx Hlo Hhi.
  destruct x as [sx|sx| |sx mx ex]; cbn [below] in Hx; try contradiction;
    cbn [div SFdiv signbit]; try (split; reflexivity).
  unfold div, SFdiv.
  destruct (SFdiv_core_binary prec emax (Zpos mx) ex (Zpos my) ey) as [[q e'] l] eqn:Hc.
  destruct (SFdiv_core_binary_spec _ _ _ _ _ _ _ Hc) as (Hq & He & Hd).
  pose proof (Zdigits2_pos mx).
  apply binary_round_aux_below; unfold SpecFloat.emin, emax, prec in *; lia.
Qed.

Lemma shl_align_below (mx : positive) (ex ez B : Z) :
  ez <= ex -> Zdigits2 (Zpos mx) + ex <= B ->
  Zpos (fst (shl_align mx ex ez)) < 2 ^ (B - ez).
Proof.
  intros Hez HB.
  destruct (shl_align mx ex ez) as [mz ez'] eqn:Hs.
  destruct (shl_align_spec _ _ _ _ _ Hs) as [_ Hd].
  assert (ez' = ez).
  { unfold shl_align in Hs. destruct (ez - ex) eqn:Hz; inversion Hs; lia. }
  subst ez'. cbn [fst].
  pose proof (Zdigits2_upper (Zpos mz) ltac:(lia)) as Hu.
  pose proof (Zdigits2_pos mz).
  assert (2 ^ Zdigits2 (Zpos mz) <= 2 ^ (B - ez)) by (apply Z.pow_le_mono_r; lia).
  lia.
Qed.

Lemma binary_normalize_below (m e B : Z) :
  e <= emax - prec -> Z.abs m < 2 ^ (B - e) -> e <= B -> emin <= B -> B < emax ->
  below (B + 1) (binary_normalize prec emax m e false).
Proof.
  intros He Hm HeB Hlo Hhi.
  assert (Hd : forall p, Zpos p < 2 ^ (B - e) -> Zdigits2 (Zpos p) + e <= B).
  { intros p Hp. pose proof (Zdigits2_le (Zpos p) (B - e)). lia. }
  destruct m as [|p|p]; cbn [binary_normalize].
  - exact I.
  - apply binary_round_below; try assumption. apply Hd. lia.
  - apply binary_round_below; try assumption. apply Hd. lia.
Qed.

(** The sum of two finite numbers below [2 ^ B] is finite, below
    [2 ^ (B + 2)]. *)
Lemma add_below (x y : double) (B : Z) :
  below B x -> below B y -> emin <= B -> B <= emax - prec ->
  below (B + 2) (add x y).
Proof.
  intros Hx Hy Hlo Hhi.
  destruct x as [sx|sx| |sx mx ex]; cbn [below] in Hx; try contradiction;
    destruct y as [sy|sy| |sy my ey]; cbn [below] in Hy; try contradiction;
    cbn [add SFadd below].
  - destruct sx, sy; exact I.
  - lia.
  - lia.
  - unfold add, SFadd.
    pose proof (Zdigits2_pos mx). pose proof (Zdigits2_pos my).
    set (ez := Z.min ex ey).
    pose proof (shl_align_below mx ex ez B ltac:(unfold ez; lia) Hx) as Hmx.
    pose proof (shl_align_below my ey ez B ltac:(unfold ez; lia) Hy) as Hmy.
    replace (B + 2) with ((B + 1) + 1) by lia.
    unfold SpecFloat.emin, emax, prec in *.
    apply binary_normalize_below; unfold SpecFloat.emin, emax, prec; try (unfold ez; lia).
    replace (B + 1 - ez) with (Z.succ (B - ez)) by lia.
    rewrite Z.pow_succ_r by (unfold ez; lia).
    set (a := Zpos (fst (shl_align mx ex ez))) in *.
    set (b := Zpos (fst (shl_align my ey ez))) in *.
    assert (0 < a) by (unfold a; lia). assert (0 < b) by (unfold b; lia).
    destruct sx, sy; cbn [cond_Zopp]; lia.
Qed.

(** A sum is NaN only if an operand is NaN or both are infinite. *)
Lemma add_not_nan (x y : double) :
  isnan x = false -> isnan y = false -> isinf x = false \/ isinf y = false ->
  isnan (add x y) = false.
Proof.
  intros Hx Hy Hi.
  destruct x as [sx|sx| |sx mx ex]; try discriminate;
    destruct y as [sy|sy| |sy my ey]; try discriminate;
    cbn [add SFadd isnan]; try reflexivity;
    try (destruct sx, sy; reflexivity);
    try (destruct Hi; discriminate).
  unfold add, SFadd. apply binary_normalize_not_nan.
Qed.

Lemma below_not_nan (B : Z) (x : double) : below B x -> isnan x = false.
Proof. destruct x; simpl; tauto. Qed.

Lemma below_not_inf (B : Z) (x : double) : below B x -> isinf x = false.
Proof. destruct x; simpl; tauto. Qed.

Lemma rounded_not_nan (s : bool) (x : double) : rounded_signed s x -> isnan x = false.
Proof. destruct x; simpl; tauto. Qed.

(** *** Comparisons *)

Lemma SFcompare_antisym (x y : double) :
  SFcompare y x = option_map CompOpp (SFcompare x y).
Proof.
  destruct x as [sx|sx| |sx mx ex], y as [sy|sy| |sy my ey];
    try destruct sx; try destruct sy; try reflexivity;
    cbn [SFcompare option_map]; f_equal;
    rewrite (Z.compare_antisym ex ey);
    destruct (ex ?= ey); cbn [CompOpp]; try reflexivity.
  - rewrite (Pos.compare_cont_antisym mx my Eq). reflexivity.
  - rewrite (Pos.compare_cont_antisym mx my Eq). reflexivity.
Qed.

Lemma SFcompare_not_nan (x y : double) :
  isnan x = false -> isnan y = false -> exists c, SFcompare x y = Some c.
Proof.
  intros Hx Hy.
  destruct x as [sx|sx| |sx mx ex]; try discriminate;
    destruct y as [sy|sy| |sy my ey]; try discriminate;
    cbn [SFcompare]; eauto.
Qed.

Lemma ltb_false_leb (x y : double) :
  isnan x = false -> isnan y = false -> ltb x y = false -> leb y x = true.
Proof.
  intros Hx Hy. unfold ltb, leb, SFltb, SFleb.
  rewrite (SFcompare_antisym x y).
  destruct (SFcompare_not_nan x y Hx Hy) as [c ->].
  destruct c; simpl; congruence.
Qed.

Lemma leb_false_ltb (x y : double) :
  isnan x = false -> isnan y = false -> leb x y = false -> ltb y x = true.
Proof.
  intros Hx Hy. unfold ltb, leb, SFltb, SFleb.
  rewrite (SFcompare_antisym x y).
  destruct (SFcompare_not_nan x y Hx Hy) as [c ->].
  destruct c; simpl; congruence.
Qed.

Lemma ltb_true_leb_false (x y : double) : ltb x y = true -> leb y x = false.
Proof.
  unfold ltb, leb, SFltb, SFleb. rewrite (SFcompare_antisym x y).
  destruct (SFcompare x y) as [[]|]; simpl; congruence.
Qed.

Lemma leb_true_ltb_false (x y : double) : leb x y = true -> ltb y x = false.
Proof.
  unfold ltb, leb, SFltb, SFleb. rewrite (SFcompare_antisym x y).
  destruct (SFcompare x y) as [[]|]; simpl; congruence.
Qed.

Lemma ltb_true_leb (x y : double) : ltb x y = true -> leb x y = true.
Proof.
  unfold ltb, leb, SFltb, SFleb.
  destruct (SFcompare x y) as [[]|]; simpl; congruence.
Qed.

Lemma leb_not_nan_l (x y : double) : leb x y = true -> isnan x = false.
Proof. destruct x; simpl; try reflexivity. discriminate. Qed.

Lemma leb_not_nan_r (x y : double) : leb x y = true -> isnan y = false.
Proof. destruct x, y; simpl; try reflexivity; discriminate. Qed.

Lemma leb_antisym_eqb (x y : double) :
  leb x y = true -> leb y x = true -> eqb x y = true.
Proof.
  unfold leb, eqb, SFleb, SFeqb. rewrite (SFcompare_antisym x y).
  destruct (SFcompare x y) as [[]|]; simpl; congruence.
Qed.

(** Against zero, the order is read off the sign bit. *)
Lemma leb_zero_r (x : double) :
  leb x zero = true <->
  isnan x = false /\ (signbit x = true \/ exists s, x = S754_zero s).
Proof.
  destruct x as [s|[]| |[] m e]; simpl; split; intros H;
    try discriminate; try reflexivity; try tauto;
    try (split; [reflexivity | right; eexists; reflexivity]);
    try (destruct H as [H1 [H2 | [s' H2]]]; discriminate).
Qed.

Lemma rounded_negative_leb_zero (x : double) :
  rounded_signed true x -> leb x zero = true.
Proof.
  intros H. apply leb_zero_r. destruct x; simpl in *; subst; try tauto; auto.
Qed.

Lemma eqb_refl (x : double) : isnan x = false -> eqb x x = true.
Proof.
  destruct x as [sx|[]| |[] m e]; try discriminate; intros _; try reflexivity;
    unfold eqb, SFeqb; cbn [SFcompare];
    rewrite Z.compare_refl, Pos.compare_cont_refl; reflexivity.
Qed.

Lemma below_mono (B B' : Z) (x : double) : below B x -> B <= B' -> below B' x.
Proof. destruct x; cbn [below]; try tauto. lia. Qed.

Lemma below_is_finite (B : Z) (x : double) : below B x -> is_finite x = true.
Proof. destruct x; simpl; tauto. Qed.

(** *** Validity of results *)

Lemma Zdigits2_ge (m k : Z) : 0 <= k -> 2 ^ k <= m -> k + 1 <= Zdigits2 m.
Proof.
  intros Hk Hm.
  assert (0 <= m) by (pose proof (Z.pow_pos_nonneg 2 k); lia).
  pose proof (Zdigits2_upper m ltac:(lia)) as Hu.
  pose proof (Zdigits2_nonneg m).
  destruct (Z_lt_le_dec k (Zdigits2 m)) as [Hlt|Hle]; [lia|].
  assert (2 ^ Zdigits2 m <= 2 ^ k) by (apply Z.pow_le_mono_r; lia).
  lia.
Qed.

Lemma Zdigits2_lower (m : Z) : 0 < m -> 2 ^ (Zdigits2 m - 1) <= m.
Proof.
  intros Hm. destruct m as [|p|p]; try lia. apply digits2_pos_lower.
Qed.

Lemma Zdigits2_zero (m : Z) : 0 <= m -> Zdigits2 m = 0 -> m = 0.
Proof. destruct m; simpl; lia. Qed.

Lemma round_nearest_even_ge (m : Z) (l : location) : m <= round_nearest_even m l.
Proof.
  unfold round_nearest_even. destruct l as [|[]]; try destruct (Z.even m); lia.
Qed.

(** The digits and exponents met while rounding [m * 2 ^ e]. *)
Lemma binary_round_aux_trace (sx : bool) (m e : Z) (l : location) :
  0 <= m ->
  exists d1 e2 m2,
    Zdigits2 m <= d1 + Z.max 0 (fexp (Zdigits2 m + e) - e) /\
    d1 <= Zdigits2 m + 1 /\
    e2 = Z.max (Z.max e (fexp (Zdigits2 m + e)))
               (fexp (d1 + Z.max e (fexp (Zdigits2 m + e)))) /\
    0 <= m2 /\
    Zdigits2 m2 = Z.max 0 (d1 - (e2 - Z.max e (fexp (Zdigits2 m + e)))) /\
    Z.max 0 (Zdigits2 m - (Z.max e (fexp (Zdigits2 m + e)) - e)) <= d1 /\
    bra sx m e l =
      match m2 with
      | 0 => S754_zero sx
      | Zpos p => if e2 <=? emax - prec then S754_finite sx p e2 else S754_infinity sx
      | Zneg _ => S754_nan
      end.
Proof.
  intros Hm. unfold binary_round_aux.
  destruct (shr_fexp prec emax m e l) as [mrs1 e1] eqn:H1.
  destruct (shr_fexp_spec m e l Hm _ _ H1) as (N1 & E1 & D1).
  destruct (round_nearest_even_spec (shr_m mrs1) (loc_of_shr_record mrs1) N1) as [N2 D2].
  pose proof (round_nearest_even_ge (shr_m mrs1) (loc_of_shr_record mrs1)) as G2.
  pose proof (Zdigits2_mono _ _ (conj N1 G2)) as M2.
  destruct (shr_fexp prec emax _ e1 loc_Exact) as [mrs2 e2] eqn:H2.
  destruct (shr_fexp_spec _ e1 loc_Exact N2 _ _ H2) as (N3 & E2 & D3).
  pose proof (Zdigits2_nonneg m).
  exists (Zdigits2 (round_nearest_even (shr_m mrs1) (loc_of_shr_record mrs1))), e2, (shr_m mrs2).
  subst e1. repeat split; try lia; try reflexivity.
Qed.

(** Rounding a mantissa that sits at or below the exponent of the format
    gives a canonical result. *)
Lemma binary_round_aux_valid (sx : bool) (m e : Z) (l : location) :
  0 <= m -> e <= fexp (Zdigits2 m + e) ->
  valid_binary prec emax (bra sx m e l) = true.
Proof.
  intros Hm He.
  destruct (binary_round_aux_trace sx m e l Hm) as (d1 & e2 & m2 & A1 & A2 & A3 & A4 & A5 & A6 & ->).
  destruct m2 as [|p|p]; try reflexivity.
  destruct (e2 <=? emax - prec) eqn:Hle; [|reflexivity].
  cbn [valid_binary]. unfold bounded, canonical_mantissa.
  rewrite Hle, andb_true_r. apply Z.eqb_eq.
  change (Zpos (digits2_pos p)) with (Zdigits2 (Zpos p)).
  pose proof (Zdigits2_pos p).
  unfold SpecFloat.fexp, SpecFloat.emin, emax, prec in *. lia.
Qed.

(** Rounding a positive mantissa with an exponent of the format does not
    give zero. *)
Lemma binary_round_aux_nonzero (sx : bool) (m e : Z) (l : location) :
  0 < m -> emin <= e ->
  match bra sx m e l with
  | S754_finite s _ _ | S754_infinity s => s = sx
  | _ => False
  end.
Proof.
  intros Hm He.
  destruct (binary_round_aux_trace sx m e l ltac:(lia)) as (d1 & e2 & m2 & A1 & A2 & A3 & A4 & A5 & A6 & ->).
  pose proof (Zdigits2_ge m 0 ltac:(lia) ltac:(simpl; lia)) as Hd.
  destruct m2 as [|p|p]; try lia.
  - exfalso. cbn [Zdigits2] in A5.
    unfold SpecFloat.fexp, SpecFloat.emin, emax, prec in *. lia.
  - destruct (e2 <=? emax - prec); reflexivity.
Qed.

(** Rounding a positive mantissa beyond the largest exponent overflows. *)
Lemma binary_round_aux_overflow (sx : bool) (m e : Z) (l : location) :
  0 < m -> emin <= e -> emax - prec < fexp (Zdigits2 m + e) ->
  bra sx m e l = S754_infinity sx.
Proof.
  intros Hm He Ho.
  pose proof (binary_round_aux_nonzero sx m e l Hm He) as Hnz.
  destruct (binary_round_aux_trace sx m e l ltac:(lia)) as (d1 & e2 & m2 & A1 & A2 & A3 & A4 & A5 & A6 & Heq).
  rewrite Heq in *.
  destruct m2 as [|p|p]; try contradiction.
  replace (e2 <=? emax - prec) with false; [reflexivity|].
  symmetry. apply Z.leb_gt.
  unfold SpecFloat.fexp, SpecFloat.emin, emax, prec in *. lia.
Qed.

Lemma shl_align_exponent (mx : positive) (ex ex' : Z) :
  snd (shl_align mx ex ex') = Z.min ex ex'.
Proof.
  unfold shl_align. destruct (ex' - ex) eqn:Hz; cbn [snd]; lia.
Qed.

Lemma shl_align_fexp_spec (mx : positive) (ex : Z) :
  forall mz ez, shl_align mx ex (fexp (Zpos (digits2_pos mx) + ex)) = (mz, ez) ->
  ez = Z.min ex (fexp (Zdigits2 (Zpos mx) + ex)) /\
  Zdigits2 (Zpos mz) + ez = Zdigits2 (Zpos mx) + ex.
Proof.
  intros mz ez Hs. destruct (shl_align_spec _ _ _ _ _ Hs) as [H1 H2].
  split; [|exact H2].
  pose proof (shl_align_exponent mx ex (fexp (Zpos (digits2_pos mx) + ex))) as He.
  rewrite Hs in He. exact He.
Qed.

Lemma binary_round_valid (sx : bool) (mx : positive) (ex : Z) :
  valid_binary prec emax (binary_round prec emax sx mx ex) = true.
Proof.
  unfold binary_round.
  destruct (shl_align mx ex _) as [mz ez] eqn:Hs.
  destruct (shl_align_fexp_spec _ _ _ _ Hs) as [H1 H2].
  apply binary_round_aux_valid; [lia|]. rewrite H2. lia.
Qed.

Lemma binary_normalize_valid (m e : Z) (sz : bool) :
  valid_binary prec emax (binary_normalize prec emax m e sz) = true.
Proof.
  destruct m; cbn [binary_normalize]; [reflexivity | apply binary_round_valid ..].
Qed.

Lemma binary_round_nonzero (sx : bool) (mx : positive) (ex : Z) :
  emin <= ex ->
  match binary_round prec emax sx mx ex with
  | S754_finite s _ _ | S754_infinity s => s = sx
  | _ => False
  end.
Proof.
  intros He. unfold binary_round.
  destruct (shl_align mx ex _) as [mz ez] eqn:Hs.
  destruct (shl_align_fexp_spec _ _ _ _ Hs) as [H1 H2].
  apply binary_round_aux_nonzero; [lia|].
  unfold SpecFloat.fexp, SpecFloat.emin, emax, prec in *. lia.
Qed.

Lemma of_int_valid (z : Z) : valid_binary prec emax (of_int z) = true.
Proof. apply binary_normalize_valid. Qed.

(** An integer of more than 1025 bits converts to infinity. *)
Lemma of_int_overflow (z : Z) : 2 ^ 1025 <= z -> of_int z = pinf.
Proof.
  intros Hz.
  assert (Hpos : 0 < z) by (pose proof (Z.pow_pos_nonneg 2 1025); lia).
  destruct z as [|p|p]; try lia.
  unfold of_int. cbn [binary_normalize]. unfold binary_round.
  destruct (shl_align p 0 _) as [mz ez] eqn:Hs.
  destruct (shl_align_fexp_spec _ _ _ _ Hs) as [H1 H2].
  pose proof (Zdigits2_ge (Zpos p) 1025 ltac:(lia) Hz) as Hd.
  apply binary_round_aux_overflow; [lia | | rewrite H2];
    unfold SpecFloat.fexp, SpecFloat.emin, emax, prec in *; lia.
Qed.

Lemma bounded_spec (m : positive) (e : Z) :
  bounded prec emax m e = true ->
  fexp (Zdigits2 (Zpos m) + e) = e /\ e <= emax - prec.
Proof.
  unfold bounded, canonical_mantissa. intros H.
  apply andb_true_iff in H. destruct H as [H1 H2].
  apply Z.eqb_eq in H1. apply Z.leb_le in H2. split; assumption.
Qed.

Lemma mul_valid (x y : double) :
  valid_binary prec emax x = true -> valid_binary prec emax y = true ->
  valid_binary prec emax (mul x y) = true.
Proof.
  intros Hx Hy.
  destruct x as [sx|sx| |sx mx ex], y as [sy|sy| |sy my ey]; try reflexivity.
  cbn [valid_binary] in Hx, Hy.
  destruct (bounded_spec _ _ Hx) as [Cx _]. destruct (bounded_spec _ _ Hy) as [Cy _].
  unfold mul, SFmul. apply binary_round_aux_valid; [lia|].
  pose proof (Zdigits2_pos mx). pose proof (Zdigits2_pos my).
  pose proof (Zdigits2_lower (Zpos mx) ltac:(lia)) as Lx.
  pose proof (Zdigits2_lower (Zpos my) ltac:(lia)) as Ly.
  assert (Hd : Zdigits2 (Zpos mx) + Zdigits2 (Zpos my) - 1 <= Zdigits2 (Zpos (mx * my))).
  { replace (Zdigits2 (Zpos mx) + Zdigits2 (Zpos my) - 1)
      with ((Zdigits2 (Zpos mx) - 1 + (Zdigits2 (Zpos my) - 1)) + 1) by lia.
    apply Zdigits2_ge; [lia|].
    rewrite Z.pow_add_r by lia. rewrite Pos2Z.inj_mul.
    apply Z.mul_le_mono_nonneg; try assumption; apply Z.pow_nonneg; lia. }
  unfold SpecFloat.fexp, SpecFloat.emin, emax, prec in *. lia.
Qed.

Lemma SFdiv_core_binary_lower (mx my : positive) (ex ey : Z) :
  forall q e' l,
  SFdiv_core_binary prec emax (Zpos mx) ex (Zpos my) ey = (q, e', l) ->
  e' <= fexp (Zdigits2 (Zpos mx) + ex - (Zdigits2 (Zpos my) + ey)) /\
  Zdigits2 (Zpos mx) + ex - (Zdigits2 (Zpos my) + ey) <= Zdigits2 q + e'.
Proof.
  intros q e' l. unfold SFdiv_core_binary.
  set (e0 := Z.min (fexp _) (ex - ey)).
  assert (He0 : e0 <= ex - ey) by (unfold e0; lia).
  assert (He1 : e0 <= fexp (Zdigits2 (Zpos mx) + ex - (Zdigits2 (Zpos my) + ey)))
    by (unfold e0; lia).
  set (m' := match ex - ey - e0 with
             | 0 => Zpos mx
             | Zpos _ => Z.shiftl (Zpos mx) (ex - ey - e0)
             | Zneg _ => 0
             end).
  assert (Hm' : 0 < m' /\ Zdigits2 (Zpos mx) + (ex - ey - e0) <= Zdigits2 m').
  { pose proof (Zdigits2_lower (Zpos mx) ltac:(lia)) as Lx.
    pose proof (Zdigits2_pos mx).
    unfold m'. destruct (ex - ey - e0) as [|d|d] eqn:Hd; try lia.
    rewrite Z.shiftl_mul_pow2 by lia.
    pose proof (Z.pow_pos_nonneg 2 (Zpos d) ltac:(lia) ltac:(lia)).
    split; [nia|].
    replace (Zdigits2 (Zpos mx) + Zpos d) with ((Zdigits2 (Zpos mx) - 1 + Zpos d) + 1) by lia.
    apply Zdigits2_ge; [lia|].
    rewrite Z.pow_add_r by lia.
    apply Z.mul_le_mono_nonneg; try lia; apply Z.pow_nonneg; lia. }
  destruct Hm' as [Hm0 Hmd].
  pose proof (Z_div_mod m' (Zpos my) eq_refl) as Hdm.
  destruct (Z.div_eucl m' (Zpos my)) as [q0 r0] eqn:Hqr.
  intros Heq; inversion Heq; subst; clear Heq.
  destruct Hdm as [Hq Hr].
  split; [exact He1|].
  assert (Hq0 : 0 <= q) by nia.
  pose proof (Zdigits2_nonneg q) as Hdq.
  pose proof (Zdigits2_pos my) as Hdy.
  destruct (Z_le_gt_dec (Zdigits2 m' - Zdigits2 (Zpos my)) 0) as [Hsmall|Hbig]; [lia|].
  assert (Hk : 2 ^ (Zdigits2 m' - Zdigits2 (Zpos my) - 1) <= q).
  { pose proof (Zdigits2_lower m' Hm0) as Lm.
    pose proof (Zdigits2_upper (Zpos my) ltac:(lia)) as Uy.
    set (k := Zdigits2 m' - Zdigits2 (Zpos my) - 1) in *.
    assert (Hpk : 0 < 2 ^ k) by (apply Z.pow_pos_nonneg; lia).
    assert (Hsplit : 2 ^ (Zdigits2 m' - 1) = 2 ^ Zdigits2 (Zpos my) * 2 ^ k).
    { rewrite <- Z.pow_add_r by lia. f_equal. lia. }
    assert (Zpos my * 2 ^ k <= m') by nia.
    destruct (Z_le_gt_dec (2 ^ k) q) as [Hle|Hgt]; [exact Hle|].
    exfalso. nia. }
  pose proof (Zdigits2_ge q (Zdigits2 m' - Zdigits2 (Zpos my) - 1) ltac:(lia) Hk). lia.
Qed.

(** A quotient is always canonical. *)
Lemma div_valid (x y : double) : valid_binary prec emax (div x y) = true.
Proof.
  destruct x as [sx|sx| |sx mx ex], y as [sy|sy| |sy my ey]; try reflexivity.
  unfold div, SFdiv.
  destruct (SFdiv_core_binary prec emax (Zpos mx) ex (Zpos my) ey) as [[q e'] l] eqn:Hc.
  destruct (SFdiv_core_binary_spec _ _ _ _ _ _ _ Hc) as (Hq & _).
  destruct (SFdiv_core_binary_lower _ _ _ _ _ _ _ Hc) as (He & Hd).
  apply binary_round_aux_valid; [exact Hq|].
  unfold SpecFloat.fexp, SpecFloat.emin, emax, prec in *. lia.
Qed.

Lemma add_valid (x y : double) :
  valid_binary prec emax x = true -> valid_binary prec emax y = true ->
  valid_binary prec emax (add x y) = true.
Proof.
  intros Hx Hy.
  destruct x as [sx|sx| |sx mx ex], y as [sy|sy| |sy my ey]; try reflexivity;
    try assumption; try (destruct sx, sy; reflexivity).
  unfold add, SFadd. apply binary_normalize_valid.
Qed.

(** *** Order and subtraction of canonical numbers *)

Lemma iter_xO_value (d m : positive) :
  Zpos (Pos.iter xO m d) = Zpos m * 2 ^ Zpos d.
Proof.
  induction d as [|d IH] using Pos.peano_ind.
  - simpl. lia.
  - rewrite Pos.iter_succ, Pos2Z.inj_succ, Z.pow_succ_r by lia.
    rewrite Pos2Z.inj_xO, IH. lia.
Qed.

Lemma shl_align_value (mx : positive) (ex ez : Z) :
  ez <= ex -> Zpos (fst (shl_align mx ex ez)) = Zpos mx * 2 ^ (ex - ez).
Proof.
  intros H. unfold shl_align.
  destruct (ez - ex) as [|d|d] eqn:Hd; cbn [fst]; try lia.
  - replace (ex - ez) with 0 by lia. simpl. lia.
  - rewrite iter_xO_value. f_equal. f_equal. lia.
Qed.

(** Of two canonical numbers, the one with the larger exponent has the
    larger magnitude. *)
Lemma canonical_exponent_lt (mx my : positive) (ex ey : Z) :
  bounded prec emax mx ex = true -> bounded prec emax my ey = true ->
  ey < ex -> Zpos my < Zpos mx * 2 ^ (ex - ey).
Proof.
  intros Hx Hy Hlt.
  destruct (bounded_spec _ _ Hx) as [Cx _]. destruct (bounded_spec _ _ Hy) as [Cy _].
  pose proof (Zdigits2_upper (Zpos my) ltac:(lia)) as Uy.
  pose proof (Zdigits2_lower (Zpos mx) ltac:(lia)) as Lx.
  pose proof (Zdigits2_pos mx). pose proof (Zdigits2_pos my).
  unfold SpecFloat.fexp, SpecFloat.emin, emax, prec in *.
  assert (Hdx : Zdigits2 (Zpos mx) = 53) by lia.
  assert (Hdy : Zdigits2 (Zpos my) <= 53) by lia.
  rewrite Hdx in Lx.
  assert (2 ^ Zdigits2 (Zpos my) <= 2 ^ 53) by (apply Z.pow_le_mono_r; lia).
  assert (2 ^ 1 <= 2 ^ (ex - ey)) by (apply Z.pow_le_mono_r; lia).
  change (2 ^ (53 - 1)) with 4503599627370496 in Lx.
  change (2 ^ 53) with 9007199254740992 in *. change (2 ^ 1) with 2 in *.
  nia.
Qed.

(** Strictly positive: a positive finite number or positive infinity. *)
Lemma ltb_zero_positive (x : double) :
  ltb zero x = true <->
  match x with
  | S754_finite false _ _ | S754_infinity false => True
  | _ => False
  end.
Proof.
  destruct x as [s|[]| |[] m e]; simpl; split; intros H;
    try discriminate; try contradiction; try reflexivity; exact I.
Qed.

(** If [y < x] for canonical [x] and [y], then [x - y] is strictly
    positive: a difference of distinct numbers does not round to zero. *)
Lemma sub_positive (x y : double) :
  valid_binary prec emax x = true -> valid_binary prec emax y = true ->
  ltb y x = true -> ltb zero (sub x y) = true.
Proof.
  intros Hx Hy Hlt. apply ltb_zero_positive.
  destruct x as [sx|sx| |sx mx ex], y as [sy|sy| |sy my ey].
  1-15: repeat match goal with s : bool |- _ => destruct s end;
    first [discriminate Hlt | exact I].
  - (* finite - finite *)
    cbn [valid_binary] in Hx, Hy.
    destruct (bounded_spec _ _ Hx) as [Cx _]. destruct (bounded_spec _ _ Hy) as [Cy _].
    unfold sub, SFsub.
    set (ez := Z.min ex ey).
    rewrite (shl_align_value mx ex ez) by (unfold ez; lia).
    rewrite (shl_align_value my ey ez) by (unfold ez; lia).
    assert (Hez : emin <= ez).
    { unfold ez, SpecFloat.fexp, SpecFloat.emin, emax, prec in *. lia. }
    assert (Hpos : 0 < cond_Zopp sx (Zpos mx * 2 ^ (ex - ez)) -
                       cond_Zopp sy (Zpos my * 2 ^ (ey - ez))).
    { unfold ltb, SFltb in Hlt. cbn [SFcompare] in Hlt.
      assert (Px : 0 < Zpos mx * 2 ^ (ex - ez))
        by (apply Z.mul_pos_pos; [lia | apply Z.pow_pos_nonneg; unfold ez; lia]).
      assert (Py : 0 < Zpos my * 2 ^ (ey - ez))
        by (apply Z.mul_pos_pos; [lia | apply Z.pow_pos_nonneg; unfold ez; lia]).
      change (PosDef.Pos.compare_cont Eq my mx) with (Pos.compare my mx) in Hlt.
      destruct sy, sx; cbn [cond_Zopp]; try discriminate; try lia.
      - (* both negative *)
        destruct (Z.compare_spec ey ex) as [Heq|Hl|Hg]; cbn in Hlt; try discriminate.
        + subst ey. replace (ex - ez) with 0 by (unfold ez; lia).
          destruct (Pos.compare_spec my mx); cbn in Hlt; try discriminate.
          simpl (2 ^ 0). lia.
        + pose proof (canonical_exponent_lt my mx ey ex Hy Hx Hg).
          replace (ex - ez) with 0 by (unfold ez; lia).
          replace (ey - ez) with (ey - ex) by (unfold ez; lia).
          simpl (2 ^ 0). lia.
      - (* both positive *)
        destruct (Z.compare_spec ey ex) as [Heq|Hl|Hg]; cbn in Hlt; try discriminate.
        + subst ey. replace (ex - ez) with 0 by (unfold ez; lia).
          destruct (Pos.compare_spec my mx); cbn in Hlt; try discriminate.
          simpl (2 ^ 0). lia.
        + pose proof (canonical_exponent_lt mx my ex ey Hx Hy Hl).
          replace (ey - ez) with 0 by (unfold ez; lia).
          replace (ex - ez) with (ex - ey) by (unfold ez; lia).
          simpl (2 ^ 0). lia. }
    destruct (cond_Zopp sx _ - cond_Zopp sy _) as [|p|p] eqn:Hp; try lia.
    cbn [binary_normalize].
    pose proof (binary_round_nonzero false p ez Hez) as Hnz.
    destruct (binary_round prec emax false p ez) as [s|s| |s m e]; try contradiction;
      subst; exact I.
Qed.

End Binary64Facts.

Import Binary64Facts.

(** * The normalisation at the head of [PerformSleep] *)

Lemma NormalizeSeconds_nan (s : double) :
  isnan s = true ->
  NormalizeSeconds s = Rejected (InvalidInputException "Sleep duration cannot be NaN").
Proof. unfold NormalizeSeconds. intros ->. reflexivity. Qed.

Lemma NormalizeSeconds_inf (s : double) :
  isinf s = true -> NormalizeSeconds s = SleepFor MAX_SLEEP_SECONDS.
Proof. destruct s; try discriminate. reflexivity. Qed.

Lemma NormalizeSeconds_finite (s : double) :
  is_finite s = true ->
  NormalizeSeconds s =
    if leb s zero then ReturnEarly
    else SleepFor (if ltb MAX_SLEEP_SECONDS s then MAX_SLEEP_SECONDS else s).
Proof. destruct s; try discriminate; reflexivity. Qed.

Lemma PerformSleep_early (s : double) :
  NormalizeSeconds s = ReturnEarly ->
  forall fuel w, PerformSleep fuel s w = Some (Returned tt, w).
Proof. intros H fuel w. unfold PerformSleep. rewrite H. reflexivity. Qed.

(** C1 (the code departs from it): [sleep] of negative infinity is not a
    no-op.  [std::isinf] holds of both infinities, so negative infinity
    is replaced by [MAX_SLEEP_SECONDS] before the [<= 0] test and the
    call enters the polling loop with a deadline one hour ahead, whereas
    a large negative finite value returns at once; with the interrupt
    flag raised the call even fails, where a no-op would return. *)
Theorem sleep_negative_infinity_waits_max :
  NormalizeSeconds ninf = SleepFor MAX_SLEEP_SECONDS /\
  effective_wait (NormalizeSeconds ninf) = Some (of_int 3600) /\
  NormalizeSeconds (of_int (- 10 ^ 18)) = ReturnEarly /\
  (forall fuel w,
      PerformSleep fuel ninf w =
      PerformSleep_loop fuel (end_time_of (steady_now w) MAX_SLEEP_SECONDS) w) /\
  PerformSleep 1 ninf (mkWorld 0 0 (Some 0) []) =
    Some (Thrown InterruptException, mkWorld 0 0 (Some 0) []) /\
  PerformSleep 1 (of_int (- 10 ^ 18)) (mkWorld 0 0 (Some 0) []) =
    Some (Returned tt, mkWorld 0 0 (Some 0) []).
Proof.
  repeat split; try (vm_compute; reflexivity).
Qed.

(** C2: for a [sleep] argument that is neither NaN nor negative infinity
    the wait the call is committed to equals
    [min (max s 0) MAX_SLEEP_SECONDS]: positive infinity gives
    [MAX_SLEEP_SECONDS], every [s <= 0] (negative zero included) gives a
    wait of length zero and the call returns successfully without
    sleeping, every [s > MAX_SLEEP_SECONDS] gives [MAX_SLEEP_SECONDS],
    and every other value is kept as it is. *)
Theorem sleep_effective_wait (s : double) :
  isnan s = false -> s <> ninf ->
  exists d,
    effective_wait (NormalizeSeconds s) = Some d /\
    eqb d (min (max s zero) MAX_SLEEP_SECONDS) = true /\
    (s = pinf -> d = MAX_SLEEP_SECONDS) /\
    (leb s zero = true ->
       d = zero /\
       forall fuel w, PerformSleep fuel s w = Some (Returned tt, w)) /\
    (ltb MAX_SLEEP_SECONDS s = true -> d = MAX_SLEEP_SECONDS) /\
    (leb s zero = false -> ltb MAX_SLEEP_SECONDS s = false -> d = s).
Proof.
  intros Hnan Hninf.
  destruct s as [sg|[]| |[] m e]; try discriminate;
    try (exfalso; apply Hninf; reflexivity).
  - (* zeros *)
    exists zero. destruct sg; repeat split; try reflexivity; try discriminate.
  - (* positive infinity *)
    exists MAX_SLEEP_SECONDS. repeat split; try reflexivity; try discriminate.
  - (* negative finite *)
    exists zero. repeat split; try reflexivity; try discriminate.
  - (* positive finite *)
    set (s := S754_finite false m e).
    rewrite (NormalizeSeconds_finite s eq_refl).
    change (leb s zero) with false. cbn iota.
    unfold min, max. change (ltb s zero) with false. cbn iota.
    destruct (ltb MAX_SLEEP_SECONDS s) eqn:Hlt.
    + exists MAX_SLEEP_SECONDS. repeat split; try reflexivity; try discriminate.
    + exists s. repeat split; try reflexivity; try discriminate.
      apply eqb_refl. reflexivity.
Qed.

(** C8: whatever the argument of [PerformSleep] - and the three
    functions reach the polling loop through [PerformSleep] only - the
    duration with which the loop is entered is finite, positive and at
    most [MAX_SLEEP_SECONDS]; the other two outcomes of the normalisation
    never enter the loop (the early return is the wait of length zero,
    the rejection is the NaN argument).  So the wait a call is committed
    to always lies in [[0, MAX_SLEEP_SECONDS]]. *)
Theorem normalized_duration_in_range (s : double) :
  match NormalizeSeconds s with
  | SleepFor d =>
      is_finite d = true /\ ltb zero d = true /\ leb d MAX_SLEEP_SECONDS = true /\
      forall fuel w,
        PerformSleep fuel s w =
        PerformSleep_loop fuel (end_time_of (steady_now w) d) w
  | ReturnEarly =>
      forall fuel w, PerformSleep fuel s w = Some (Returned tt, w)
  | Rejected e =>
      isnan s = true /\
      forall fuel w, PerformSleep fuel s w = Some (Thrown e, w)
  end /\
  match effective_wait (NormalizeSeconds s) with
  | Some d =>
      is_finite d = true /\ leb zero d = true /\ leb d MAX_SLEEP_SECONDS = true
  | None => isnan s = true
  end.
Proof.
  destruct s as [sg|[]| |[] m e]; try (split; [repeat split|]; repeat split; fail).
  set (s := S754_finite false m e).
  rewrite (NormalizeSeconds_finite s eq_refl).
  change (leb s zero) with false. cbn iota.
  assert (Hs : forall fuel w,
             PerformSleep fuel s w =
             PerformSleep_loop fuel
               (end_time_of (steady_now w)
                  (if ltb MAX_SLEEP_SECONDS s then MAX_SLEEP_SECONDS else s)) w).
  { intros fuel w. unfold PerformSleep.
    rewrite (NormalizeSeconds_finite s eq_refl).
    change (leb s zero) with false. reflexivity. }
  destruct (ltb MAX_SLEEP_SECONDS s) eqn:Hlt; cbn [effective_wait].
  - repeat split; exact Hs.
  - assert (leb s MAX_SLEEP_SECONDS = true)
      by (apply ltb_false_leb; [reflexivity | reflexivity | exact Hlt]).
    repeat split; try assumption.
Qed.

(** C10: the normalisation is idempotent.  Normalising the wait it
    produced for [s] gives the result it gave for [s], and every value of
    [[0, MAX_SLEEP_SECONDS]] is a fixed point: it is its own wait (the two
    zeros, equal as numbers, both give the wait [+0]). *)
Theorem normalization_idempotent :
  (forall s : double,
      match effective_wait (NormalizeSeconds s) with
      | Some d =>
          NormalizeSeconds d = NormalizeSeconds s /\
          effective_wait (NormalizeSeconds d) = Some d
      | None => isnan s = true
      end) /\
  (forall v : double,
      leb zero v = true -> leb v MAX_SLEEP_SECONDS = true ->
      exists d,
        effective_wait (NormalizeSeconds v) = Some d /\
        eqb d v = true /\
        (v <> S754_zero true -> d = v)).
Proof.
  split.
  - intros s. destruct s as [sg|[]| |[] m e]; try (repeat split; fail).
    set (s := S754_finite false m e).
    rewrite (NormalizeSeconds_finite s eq_refl).
    change (leb s zero) with false. cbn iota.
    destruct (ltb MAX_SLEEP_SECONDS s) eqn:Hlt; cbn [effective_wait].
    + split; reflexivity.
    + rewrite (NormalizeSeconds_finite s eq_refl).
      change (leb s zero) with false. rewrite Hlt. split; reflexivity.
  - intros v H0 HM.
    destruct v as [sg|[]| |[] m e]; try discriminate.
    + exists zero. split; [reflexivity|]. split.
      * destruct sg; reflexivity.
      * intros Hne. destruct sg; [congruence | reflexivity].
    + set (v := S754_finite false m e) in *.
      exists v. rewrite (NormalizeSeconds_finite v eq_refl).
      change (leb v zero) with false.
      rewrite (leb_true_ltb_false _ _ HM).
      repeat split. apply eqb_refl. reflexivity.
Qed.

Lemma normalization_idempotent_witness :
  exists d,
    effective_wait (NormalizeSeconds (of_int 1800)) = Some d /\
    eqb d (of_int 1800) = true /\
    (of_int 1800 <> S754_zero true -> d = of_int 1800).
Proof.
  apply (proj2 normalization_idempotent (of_int 1800)); reflexivity.
Defined.

Lemma sleep_effective_wait_witness :
  exists d,
    effective_wait (NormalizeSeconds (of_int 7200)) = Some d /\
    eqb d (min (max (of_int 7200) zero) MAX_SLEEP_SECONDS) = true /\
    (of_int 7200 = pinf -> d = MAX_SLEEP_SECONDS) /\
    (leb (of_int 7200) zero = true ->
       d = zero /\
       forall fuel w, PerformSleep fuel (of_int 7200) w = Some (Returned tt, w)) /\
    (ltb MAX_SLEEP_SECONDS (of_int 7200) = true -> d = MAX_SLEEP_SECONDS) /\
    (leb (of_int 7200) zero = false ->
       ltb MAX_SLEEP_SECONDS (of_int 7200) = false -> d = of_int 7200).
Proof.
  apply (sleep_effective_wait (of_int 7200)); [reflexivity | discriminate].
Defined.

(** * The conversions to seconds *)

Lemma wrap64_range (z : Z) : int64_range (wrap64 z).
Proof.
  unfold int64_range, wrap64, INT64_MIN, INT64_MAX.
  pose proof (Z.mod_pos_bound (z + 2 ^ 63) (2 ^ 64) ltac:(lia)). lia.
Qed.

Lemma wrap64_exact (z : Z) : int64_range z -> wrap64 z = z.
Proof.
  unfold int64_range, wrap64, INT64_MIN, INT64_MAX. intros H.
  rewrite Z.mod_small by lia. lia.
Qed.

Lemma lit_86400_below : below 17 lit_86400.
Proof. vm_compute. discriminate. Qed.

Lemma lit_2592000_below : below 22 lit_2592000.
Proof. vm_compute. discriminate. Qed.

Lemma of_int32_below (z : Z) : int32_range z -> below 33 (of_int z).
Proof.
  unfold int32_range, INT32_MIN, INT32_MAX. intros H.
  apply (of_int_below z 32); [unfold emax; lia | lia].
Qed.

Lemma of_int64_below (z : Z) : int64_range z -> below 65 (of_int z).
Proof.
  unfold int64_range, INT64_MIN, INT64_MAX. intros H.
  apply (of_int_below z 64); [unfold emax; lia | lia].
Qed.

(** Microseconds to seconds: finite, with the sign of the count. *)
Lemma micros_to_seconds_below (z : Z) :
  int64_range z -> below 99 (div (of_int z) lit_1000000).
Proof.
  intros H. pose proof (of_int64_below z H) as Hz.
  change lit_1000000 with (S754_finite false 8589934592000000 (-33)).
  change 99 with (65 - (-33) + 1).
  apply div_below; [exact Hz | unfold SpecFloat.emin, emax, prec; lia
                   | unfold emax, prec; lia].
Qed.

Lemma micros_to_seconds_nonpositive (z : Z) :
  z <= 0 -> leb (div (of_int z) lit_1000000) zero = true.
Proof.
  intros H. destruct (Z.eq_dec z 0) as [->|Hz]; [reflexivity|].
  apply rounded_negative_leb_zero.
  change lit_1000000 with (S754_finite false 8589934592000000 (-33)).
  pose proof (of_int_signed z) as Hs.
  replace (z <? 0) with true in Hs by (symmetry; apply Z.ltb_lt; lia).
  pose proof (div_signed (of_int z) false 8589934592000000 (-33)
                (rounded_not_nan _ _ Hs)) as Hd.
  assert (Hsign : signbit (of_int z) = true)
    by (destruct (of_int z); simpl in Hs |- *; tauto).
  rewrite Hsign in Hd. exact Hd.
Qed.

(** The seconds of a well-formed interval are finite. *)
Lemma interval_seconds_below (i : interval_t) :
  interval_wf i -> below 101 (interval_seconds i).
Proof.
  intros (Hm & Hd & Hu). unfold interval_seconds.
  assert (Ha : below 51 (mul (of_int (days i)) lit_86400)).
  { change 51 with (33 + 17 + 1).
    apply mul_below; [apply of_int32_below; exact Hd | exact lit_86400_below
                     | unfold SpecFloat.emin, emax, prec; lia | unfold emax, prec; lia]. }
  assert (Hb : below 56 (mul (of_int (months i)) lit_2592000)).
  { change 56 with (33 + 22 + 1).
    apply mul_below; [apply of_int32_below; exact Hm | exact lit_2592000_below
                     | unfold SpecFloat.emin, emax, prec; lia | unfold emax, prec; lia]. }
  pose proof (micros_to_seconds_below (micros i) Hu) as Hc.
  assert (Hab : below 58 (add (mul (of_int (days i)) lit_86400)
                              (mul (of_int (months i)) lit_2592000))).
  { change 58 with (56 + 2).
    apply add_below; [apply (below_mono 51); [exact Ha | lia] | exact Hb
                     | unfold SpecFloat.emin, emax, prec; lia | unfold emax, prec; lia]. }
  change 101 with (99 + 2).
  apply add_below; [apply (below_mono 58); [exact Hab | lia] | exact Hc
                   | unfold SpecFloat.emin, emax, prec; lia | unfold emax, prec; lia].
Qed.

(** * Termination of the polling loop *)

Lemma ticks_of_positive (d : double) :
  ltb zero d = true -> isinf d = false -> 1 <= ticks_of d.
Proof.
  intros Hpos Hinf. apply ltb_zero_positive in Hpos.
  destruct d as [s|s| |s m e]; try contradiction; try discriminate.
  destruct s; [contradiction|]. cbn [ticks_of].
  destruct (0 <=? e) eqn:He.
  - apply Z.leb_le in He.
    pose proof (Z.pow_pos_nonneg 2 e ltac:(lia) He). nia.
  - apply Z.leb_gt in He.
    pose proof (Z.pow_pos_nonneg 2 (- e) ltac:(lia) ltac:(lia)).
    apply Z.div_le_lower_bound; lia.
Qed.

(** A pass through the loop body entered before the deadline advances
    the clock by at least one tick. *)
Lemma sleep_slice_progress (end_time : double) (w : World) :
  valid_double end_time ->
  ltb (of_int (steady_now w)) end_time = true ->
  steady w + 1 <= steady (sleep_slice end_time w).
Proof.
  intros Hv Hlt. unfold sleep_slice, sleep_duration_of.
  pose proof (sub_positive end_time (of_int (steady_now w)) Hv (of_int_valid _) Hlt)
    as Hrem.
  set (remaining := sub end_time (of_int (steady_now w))) in *.
  assert (Hd : ltb zero (if ltb remaining check_interval then remaining else check_interval)
               = true /\
               isinf (if ltb remaining check_interval then remaining else check_interval)
               = false).
  { destruct (ltb remaining check_interval) eqn:Hc.
    - split; [exact Hrem|].
      destruct remaining as [s|[]| |s m e]; try reflexivity; discriminate.
    - split; reflexivity. }
  destruct Hd as [Hd1 Hd2]. rewrite Hd1. cbn [sleep_for steady].
  pose proof (ticks_of_positive _ Hd1 Hd2). lia.
Qed.

(** Once the clock no longer fits a [double] the loop test fails. *)
Lemma loop_test_fails_late (end_time : double) (c : Z) :
  2 ^ 1025 <= c -> ltb (of_int c) end_time = false.
Proof.
  intros Hc. rewrite (of_int_overflow c Hc).
  destruct end_time as [s|[]| |[] m e]; reflexivity.
Qed.

Lemma PerformSleep_loop_total (end_time : double) :
  valid_double end_time ->
  forall (k : nat) (w : World),
    2 ^ 1025 - steady w <= Z.of_nat k ->
    exists r, forall fuel, (k < fuel)%nat -> PerformSleep_loop fuel end_time w = Some r.
Proof.
  intros Hv. induction k as [|k IH]; intros w Hk.
  - exists (Returned tt, w). intros [|fuel] Hf; [lia|]. cbn [PerformSleep_loop].
    rewrite loop_test_fails_late by (unfold steady_now; lia). reflexivity.
  - destruct (ltb (of_int (steady_now w)) end_time) eqn:Hlt.
    + destruct (interrupted w) eqn:Hint.
      * exists (Thrown InterruptException, w). intros [|fuel] Hf; [lia|].
        cbn [PerformSleep_loop]. rewrite Hlt. unfold bind, CheckInterruption.
        rewrite Hint. reflexivity.
      * pose proof (sleep_slice_progress end_time w Hv Hlt) as Hprog.
        destruct (IH (sleep_slice end_time w) ltac:(lia)) as [r Hr].
        exists r. intros [|fuel] Hf; [lia|].
        cbn [PerformSleep_loop]. rewrite Hlt. unfold bind, CheckInterruption.
        rewrite Hint. cbn [ret]. apply Hr. lia.
    + exists (Returned tt, w). intros [|fuel] Hf; [lia|]. cbn [PerformSleep_loop].
      rewrite Hlt. reflexivity.
Qed.

Lemma PerformSleep_loop_completes (end_time : double) (w : World) :
  valid_double end_time ->
  exists r, completes (fun fuel => PerformSleep_loop fuel end_time) w r.
Proof.
  intros Hv.
  destruct (PerformSleep_loop_total end_time Hv
              (Z.to_nat (2 ^ 1025 - steady w)) w ltac:(lia)) as [r Hr].
  exists r, (S (Z.to_nat (2 ^ 1025 - steady w))). intros fuel Hf. apply Hr. lia.
Qed.

Lemma MAX_SLEEP_SECONDS_valid : valid_double MAX_SLEEP_SECONDS.
Proof. reflexivity. Qed.

Lemma end_time_of_valid (now : Z) (seconds : double) :
  valid_double seconds -> valid_double (end_time_of now seconds).
Proof.
  intros Hs. unfold end_time_of.
  apply add_valid; [apply of_int_valid|].
  apply mul_valid; [exact Hs | reflexivity].
Qed.

Lemma NormalizeSeconds_valid (s d : double) :
  valid_double s -> NormalizeSeconds s = SleepFor d -> valid_double d.
Proof.
  intros Hs. unfold NormalizeSeconds.
  destruct (isnan s); [discriminate|].
  destruct (isinf s).
  - cbn. intros H; inversion H; subst. reflexivity.
  - destruct (leb s zero); [discriminate|].
    destruct (ltb MAX_SLEEP_SECONDS s); intros H; inversion H; subst;
      [reflexivity | exact Hs].
Qed.

(** [PerformSleep] always completes: it returns or it throws. *)
Lemma PerformSleep_completes (s : double) (w : World) :
  valid_double s -> exists r, completes (fun fuel => PerformSleep fuel s) w r.
Proof.
  intros Hs. unfold PerformSleep, completes.
  destruct (NormalizeSeconds s) as [e| |d] eqn:Hn.
  - exists (Thrown e, w), 0%nat. reflexivity.
  - exists (Returned tt, w), 0%nat. reflexivity.
  - apply PerformSleep_loop_completes, end_time_of_valid.
    exact (NormalizeSeconds_valid s d Hs Hn).
Qed.

Lemma interval_seconds_valid (i : interval_t) : valid_double (interval_seconds i).
Proof.
  unfold interval_seconds.
  apply add_valid; [apply add_valid; apply mul_valid;
                     first [apply of_int_valid | reflexivity] | apply div_valid].
Qed.

Lemma SleepUntil_row_completes (t : timestamp_t) (w : World) :
  exists r, completes (fun fuel => SleepUntil_row fuel t) w r.
Proof.
  unfold SleepUntil_row.
  destruct (value t =? INT64_MIN).
  - exists (Returned tt, w), 0%nat. reflexivity.
  - destruct (value t =? INT64_MAX).
    + apply PerformSleep_completes, MAX_SLEEP_SECONDS_valid.
    + apply PerformSleep_completes, div_valid.
Qed.

(** * The row loop *)

Section RowLoop.

Context {A : Type}.
Variable body : A -> Exec unit.

Lemma for_each_row_app (pre post : Column A) (w : World) :
  for_each_row body (pre ++ post) w =
  match for_each_row body pre w with
  | Some (Returned _, w1) => for_each_row body post w1
  | Some (Thrown e, w1) => Some (Thrown e, w1)
  | None => None
  end.
Proof.
  revert w. induction pre as [|[x|] pre IH]; intros w; cbn [for_each_row app].
  - reflexivity.
  - unfold bind. destruct (body x w) as [[[[]|e] w1]|]; [apply IH | reflexivity | reflexivity].
  - apply IH.
Qed.

(** A row that throws ends the loop: the rows after it are not run. *)
Lemma for_each_row_throws (pre post : Column A) (x : A) (e : Exception)
      (w w1 w2 : World) :
  for_each_row body pre w = Some (Returned tt, w1) ->
  body x w1 = Some (Thrown e, w2) ->
  for_each_row body (pre ++ Some x :: post) w = Some (Thrown e, w2).
Proof.
  intros Hpre Hx. rewrite for_each_row_app, Hpre.
  cbn [for_each_row]. unfold bind. rewrite Hx. reflexivity.
Qed.

(** NULL rows are skipped. *)
Lemma for_each_row_skips_null (rows : Column A) (w : World) :
  for_each_row body rows w =
  for_each_row body (filter is_valid_row rows) w.
Proof.
  revert w. induction rows as [|[x|] rows IH]; intros w;
    cbn [for_each_row filter is_valid_row].
  - reflexivity.
  - unfold bind. destruct (body x w) as [[[[]|e] w1]|]; [apply IH | reflexivity | reflexivity].
  - apply IH.
Qed.

Lemma for_each_row_all_null (n : nat) (w : World) :
  for_each_row body (repeat None n) w = Some (Returned tt, w).
Proof. induction n as [|n IH]; cbn [repeat for_each_row]; [reflexivity | exact IH]. Qed.

(** If the loop returns, every row's body returned. *)
Lemma for_each_row_returns (rows : Column A) (w w' : World) (x : A) :
  for_each_row body rows w = Some (Returned tt, w') ->
  In (Some x) rows ->
  exists w1 w2, body x w1 = Some (Returned tt, w2).
Proof.
  revert w. induction rows as [|[y|] rows IH]; intros w Hrun Hin; cbn [for_each_row] in Hrun.
  - contradiction.
  - unfold bind in Hrun.
    destruct (body y w) as [[[[]|e] w1]|] eqn:Hy; try discriminate.
    destruct Hin as [Heq|Hin].
    + inversion Heq; subst. eauto.
    + eapply IH; eauto.
  - destruct Hin as [Heq|Hin]; [discriminate|]. eapply IH; eauto.
Qed.

End RowLoop.

(** The three functions return exactly when their row loop returns, and
    then hand back the constant NULL vector. *)
Lemma return_null_after {A} (body : A -> Exec unit) (rows : Column A)
      (result : Vector) (w : World) :
  (for_each_row body rows ;; return_null result)%exec w =
  match for_each_row body rows w with
  | Some (Returned _, w1) =>
      Some (Returned (SetNull true (SetVectorType CONSTANT_VECTOR result)), w1)
  | Some (Thrown e, w1) => Some (Thrown e, w1)
  | None => None
  end.
Proof.
  unfold bind. destruct (for_each_row body rows w) as [[[[]|e] w1]|]; reflexivity.
Qed.

Lemma PerformSleep_nan (fuel : nat) (x : double) (w : World) :
  isnan x = true ->
  PerformSleep fuel x w =
  Some (Thrown (InvalidInputException "Sleep duration cannot be NaN"), w).
Proof.
  intros Hx. unfold PerformSleep. rewrite (NormalizeSeconds_nan x Hx). reflexivity.
Qed.

(** Whatever happens in the rows before it, a batch with a NaN row never
    returns successfully. *)
Lemma sleep_nan_row_never_returns (fuel : nat) (args : Column double) (x : double)
      (result : Vector) (w : World) :
  isnan x = true -> In (Some x) args ->
  forall v w', SleepFunction fuel args result w <> Some (Returned v, w').
Proof.
  intros Hx Hin v w' Hrun. unfold SleepFunction in Hrun.
  rewrite return_null_after in Hrun.
  destruct (for_each_row (PerformSleep fuel) args w) as [[[[]|e] w1]|] eqn:Hloop;
    try discriminate.
  destruct (for_each_row_returns _ _ _ _ _ Hloop Hin) as (wa & wb & Hbody).
  rewrite (PerformSleep_nan fuel x wa Hx) in Hbody. discriminate.
Qed.

(** C3, as the code has it: in a batch given to [sleep] with a non-NULL
    NaN row, the call fails at the first row that fails.  If the rows
    before the NaN row complete their waits, the call throws the
    invalid-input exception at that row, in the very world those rows
    left: the NaN row sleeps for no slice, and no row after it is
    started.  If a row before it throws - an earlier NaN row, or a wait
    that is interrupted - that exception is the outcome, in the world of
    that throw, and the NaN row is not reached.  In no case does the
    call return. *)
Theorem sleep_nan_row_fails (fuel : nat) (pre post : Column double) (x : double)
        (result : Vector) (w : World) :
  isnan x = true ->
  SleepFunction fuel (pre ++ Some x :: post) result w =
    match for_each_row (PerformSleep fuel) pre w with
    | Some (Returned _, w1) =>
        Some (Thrown (InvalidInputException "Sleep duration cannot be NaN"), w1)
    | Some (Thrown e, w1) => Some (Thrown e, w1)
    | None => None
    end /\
  (forall w1,
      for_each_row (PerformSleep fuel) pre w = Some (Returned tt, w1) ->
      SleepFunction fuel (pre ++ Some x :: post) result w =
      Some (Thrown (InvalidInputException "Sleep duration cannot be NaN"), w1)) /\
  (forall v w',
      SleepFunction fuel (pre ++ Some x :: post) result w <> Some (Returned v, w')).
Proof.
  intros Hx.
  assert (Heq : SleepFunction fuel (pre ++ Some x :: post) result w =
                match for_each_row (PerformSleep fuel) pre w with
                | Some (Returned _, w1) =>
                    Some (Thrown (InvalidInputException "Sleep duration cannot be NaN"), w1)
                | Some (Thrown e, w1) => Some (Thrown e, w1)
                | None => None
                end).
  { unfold SleepFunction. rewrite return_null_after, for_each_row_app.
    destruct (for_each_row (PerformSleep fuel) pre w) as [[[[]|e] w1]|];
      [|reflexivity|reflexivity].
    cbn [for_each_row]. unfold bind. rewrite (PerformSleep_nan fuel x w1 Hx).
    reflexivity. }
  split; [exact Heq|]. split.
  - intros w1 Hpre. rewrite Heq, Hpre. reflexivity.
  - apply sleep_nan_row_never_returns with (x := x); [exact Hx|].
    apply in_or_app. right. left. reflexivity.
Qed.

Lemma sleep_nan_row_fails_witness :
  SleepFunction 5 ([Some quarter_second; None] ++ Some nan :: [Some (of_int 1)])
    (fresh_vector 4) (mkWorld 0 0 None []) =
  Some (Thrown (InvalidInputException "Sleep duration cannot be NaN"),
        mkWorld 250000000 0 None
          [S754_finite false 6710886400000000 (-27);
           S754_finite false 6710886400000000 (-26);
           S754_finite false 6710886400000000 (-26)]).
Proof.
  apply (proj1 (proj2 (sleep_nan_row_fails 5 [Some quarter_second; None]
                         [Some (of_int 1)] nan (fresh_vector 4)
                         (mkWorld 0 0 None []) eq_refl))).
  vm_compute. reflexivity.
Defined.

(** C3 does not hold for every batch with a NaN row.  In
    [[0.25; NaN]] with the interrupt flag raised 150 ms into the call,
    the wait of the first row is interrupted at its third polling check:
    the call throws the interrupt exception, not the invalid-input one,
    and the row before the NaN row has not completed its wait.  In
    [[NaN; 0.25; NaN]] the call fails at the first row: the row before
    the last NaN row never waits, nothing having been slept. *)
Lemma sleep_nan_row_not_reached :
  isnan nan = true /\
  SleepFunction 5 [Some quarter_second; Some nan] (fresh_vector 2)
    (mkWorld 0 0 (Some 150000000) []) =
    Some (Thrown InterruptException,
          mkWorld 200000000 0 (Some 150000000) [check_interval; check_interval]) /\
  PerformSleep 5 quarter_second (mkWorld 0 0 (Some 150000000) []) =
    Some (Thrown InterruptException,
          mkWorld 200000000 0 (Some 150000000) [check_interval; check_interval]) /\
  SleepFunction 5 [Some nan; Some quarter_second; Some nan] (fresh_vector 3)
    (mkWorld 0 0 None []) =
    Some (Thrown (InvalidInputException "Sleep duration cannot be NaN"),
          mkWorld 0 0 None []).
Proof.
  repeat split; vm_compute; reflexivity.
Qed.

(** * The three functions *)

Lemma clamp_rules_finite (v : double) :
  is_finite v = true ->
  effective_wait (NormalizeSeconds v) = Some (clamp_rules v).
Proof.
  intros Hv. rewrite (NormalizeSeconds_finite v Hv). unfold clamp_rules.
  destruct v as [sg|sg| |sg m e]; try discriminate;
    (destruct (leb _ zero); [reflexivity|]);
    destruct (ltb MAX_SLEEP_SECONDS _); reflexivity.
Qed.

(** C5: for a non-NULL [sleep_for] row the seconds handed to
    [PerformSleep] are [days * 86400 + months * 2592000 + micros / 1000000]
    in [double] arithmetic, a month counting as exactly thirty days; the
    value is finite, so the NaN check does not fire and the wait is the
    one the clamp and pass-through rules give. *)
Theorem sleep_for_interval_seconds (i : interval_t) :
  interval_wf i ->
  interval_seconds i =
    add (add (mul (of_int (days i)) (of_int 86400))
             (mul (of_int (months i)) (of_int (30 * 86400))))
        (div (of_int (micros i)) (of_int 1000000)) /\
  is_finite (interval_seconds i) = true /\
  NormalizeSeconds (interval_seconds i) =
    (if leb (interval_seconds i) zero then ReturnEarly
     else SleepFor (if ltb MAX_SLEEP_SECONDS (interval_seconds i)
                    then MAX_SLEEP_SECONDS else interval_seconds i)) /\
  effective_wait (NormalizeSeconds (interval_seconds i)) =
    Some (clamp_rules (interval_seconds i)) /\
  forall fuel rest result w,
    SleepForFunction fuel (Some i :: rest) result w =
    (PerformSleep fuel (interval_seconds i) ;;
     SleepForFunction fuel rest result)%exec w.
Proof.
  intros Hwf.
  pose proof (below_is_finite _ _ (interval_seconds_below i Hwf)) as Hfin.
  split; [reflexivity|]. split; [exact Hfin|].
  split; [apply NormalizeSeconds_finite; exact Hfin|].
  split; [apply clamp_rules_finite; exact Hfin|].
  intros fuel rest result w. unfold SleepForFunction. cbn [for_each_row].
  unfold bind. destruct (PerformSleep fuel (interval_seconds i) w) as [[[[]|e] w1]|];
    reflexivity.
Qed.

Lemma sleep_for_interval_seconds_witness :
  interval_seconds (mkInterval 1 0 500000) =
    add (add (mul (of_int 0) (of_int 86400))
             (mul (of_int 1) (of_int (30 * 86400))))
        (div (of_int 500000) (of_int 1000000)) /\
  effective_wait (NormalizeSeconds (interval_seconds (mkInterval 1 0 500000))) =
    Some MAX_SLEEP_SECONDS.
Proof.
  destruct (sleep_for_interval_seconds (mkInterval 1 0 500000)) as (H1 & _ & _ & H4 & _).
  - unfold interval_wf, int32_range, int64_range, INT32_MIN, INT32_MAX,
      INT64_MIN, INT64_MAX. simpl. lia.
  - split; [exact H1 | exact H4].
Defined.

(** The two intervals of the specification's examples: half a second,
    and one month, which is 2592000 seconds before the clamp and
    [MAX_SLEEP_SECONDS] after it. *)
Example interval_half_second :
  interval_seconds (mkInterval 0 0 500000) = div (of_int 1) (of_int 2) /\
  NormalizeSeconds (interval_seconds (mkInterval 0 0 500000)) =
    SleepFor (div (of_int 1) (of_int 2)).
Proof. split; vm_compute; reflexivity. Qed.

Example interval_one_month :
  interval_seconds (mkInterval 1 0 0) = of_int 2592000 /\
  NormalizeSeconds (interval_seconds (mkInterval 1 0 0)) = SleepFor MAX_SLEEP_SECONDS.
Proof. split; vm_compute; reflexivity. Qed.

(** The polling loop throws nothing but the interrupt exception. *)
Lemma PerformSleep_loop_throws (fuel : nat) (end_time : double) :
  forall w e w',
    PerformSleep_loop fuel end_time w = Some (Thrown e, w') ->
    e = InterruptException.
Proof.
  induction fuel as [|fuel IH]; intros w e w'; cbn [PerformSleep_loop].
  - discriminate.
  - destruct (ltb (of_int (steady_now w)) end_time); [|discriminate].
    unfold bind, CheckInterruption.
    destruct (interrupted w); cbn [throw ret].
    + intros H; inversion H; reflexivity.
    + apply IH.
Qed.

Lemma PerformSleep_throws (fuel : nat) (s : double) (w w' : World) (e : Exception) :
  isnan s = false ->
  PerformSleep fuel s w = Some (Thrown e, w') -> e = InterruptException.
Proof.
  intros Hs. unfold PerformSleep.
  destruct (NormalizeSeconds s) as [e0| |d] eqn:Hn.
  - unfold NormalizeSeconds in Hn. rewrite Hs in Hn.
    destruct (leb _ zero); discriminate.
  - discriminate.
  - apply PerformSleep_loop_throws.
Qed.

Lemma timestamp_seconds_finite (target now : Z) :
  is_finite (div (of_int (sub64 target now)) lit_1000000) = true.
Proof.
  apply (below_is_finite 99), micros_to_seconds_below, wrap64_range.
Qed.

Lemma is_finite_not_nan (x : double) : is_finite x = true -> isnan x = false.
Proof. destruct x; simpl; congruence. Qed.

Lemma SleepUntil_row_throws (fuel : nat) (t : timestamp_t) (w w' : World)
      (e : Exception) :
  SleepUntil_row fuel t w = Some (Thrown e, w') -> e = InterruptException.
Proof.
  unfold SleepUntil_row.
  destruct (value t =? INT64_MIN); [discriminate|].
  destruct (value t =? INT64_MAX).
  - apply PerformSleep_throws. reflexivity.
  - apply PerformSleep_throws, is_finite_not_nan, timestamp_seconds_finite.
Qed.

Lemma for_each_row_thrown {A} (body : A -> Exec unit) (rows : Column A) :
  forall w e w',
    for_each_row body rows w = Some (Thrown e, w') ->
    exists x w1, In (Some x) rows /\ body x w1 = Some (Thrown e, w').
Proof.
  induction rows as [|[x|] rows IH]; intros w e w'; cbn [for_each_row].
  - discriminate.
  - unfold bind. destruct (body x w) as [[[[]|e0] w1]|] eqn:Hx; try discriminate.
    + intros H. destruct (IH _ _ _ H) as (y & wy & Hin & Hy).
      exists y, wy. split; [right; exact Hin | exact Hy].
    + intros H; inversion H; subst. exists x, w. split; [left; reflexivity | exact Hx].
  - intros H. destruct (IH _ _ _ H) as (y & wy & Hin & Hy).
    exists y, wy. split; [right; exact Hin | exact Hy].
Qed.

(** C9: [sleep_for] and [sleep_until] never fail with the invalid-input
    exception.  The seconds computed from the integer fields of an
    interval, and from the microsecond difference of two timestamps, are
    never NaN, so the NaN branch of [PerformSleep] is not taken on these
    two paths; the only exception either function can throw is the
    interrupt. *)
Theorem interval_and_timestamp_never_invalid (fuel : nat) (result : Vector)
        (w w' : World) (msg : string)
        (intervals : Column interval_t) (timestamps : Column timestamp_t) :
  Forall (fun r => match r with Some i => interval_wf i | None => True end) intervals ->
  Forall (fun r => match r with
                   | Some i => isnan (interval_seconds i) = false
                   | None => True
                   end) intervals /\
  SleepForFunction fuel intervals result w <>
    Some (Thrown (InvalidInputException msg), w') /\
  Forall (fun r => match r with
                   | Some t =>
                       forall now,
                         isnan (div (of_int (sub64 (value t) now)) lit_1000000) = false
                   | None => True
                   end) timestamps /\
  SleepUntilFunction fuel timestamps result w <>
    Some (Thrown (InvalidInputException msg), w').
Proof.
  intros Hwf.
  assert (Hnan : forall i, In (Some i) intervals -> isnan (interval_seconds i) = false).
  { intros i Hin. rewrite Forall_forall in Hwf.
    eapply below_not_nan, interval_seconds_below, (Hwf (Some i) Hin). }
  repeat split.
  - apply Forall_forall. intros [i|] Hin; [apply Hnan; exact Hin | exact I].
  - unfold SleepForFunction. rewrite return_null_after.
    destruct (for_each_row _ intervals w) as [[[[]|e0] w1]|] eqn:Hloop; try discriminate.
    intros H; inversion H; subst.
    destruct (for_each_row_thrown _ _ _ _ _ Hloop) as (i & wi & Hin & Hi).
    pose proof (PerformSleep_throws _ _ _ _ _ (Hnan i Hin) Hi). discriminate.
  - apply Forall_forall. intros [t|] _; [|exact I].
    intros now. apply is_finite_not_nan, timestamp_seconds_finite.
  - unfold SleepUntilFunction. rewrite return_null_after.
    destruct (for_each_row _ timestamps w) as [[[[]|e0] w1]|] eqn:Hloop; try discriminate.
    intros H; inversion H; subst.
    destruct (for_each_row_thrown _ _ _ _ _ Hloop) as (t & wt & Hin & Ht).
    pose proof (SleepUntil_row_throws _ _ _ _ _ Ht). discriminate.
Qed.

Lemma interval_and_timestamp_never_invalid_witness :
  SleepForFunction 5 [Some (mkInterval 0 0 250000); None] (fresh_vector 2)
    (mkWorld 0 0 None []) <>
    Some (Thrown (InvalidInputException "Sleep duration cannot be NaN"),
          mkWorld 0 0 None []) /\
  SleepUntilFunction 5 [Some (mkTimestamp 250000)] (fresh_vector 2)
    (mkWorld 0 0 None []) <>
    Some (Thrown (InvalidInputException "Sleep duration cannot be NaN"),
          mkWorld 0 0 None []).
Proof.
  destruct (interval_and_timestamp_never_invalid 5 (fresh_vector 2)
              (mkWorld 0 0 None []) (mkWorld 0 0 None [])
              "Sleep duration cannot be NaN"
              [Some (mkInterval 0 0 250000); None] [Some (mkTimestamp 250000)])
    as (_ & H2 & _ & H4).
  - repeat constructor; vm_compute; discriminate.
  - split; [exact H2 | exact H4].
Defined.

(** * [sleep_until] *)

(** What a [sleep_until] row does when the target is a sentinel, and
    when the subtraction stays within [int64_t]. *)
Lemma SleepUntil_row_cases (fuel : nat) (t : timestamp_t) (w : World) :
  (value t = INT64_MIN -> SleepUntil_row fuel t w = Some (Returned tt, w)) /\
  (value t = INT64_MAX ->
     SleepUntil_row fuel t w = PerformSleep fuel MAX_SLEEP_SECONDS w /\
     NormalizeSeconds MAX_SLEEP_SECONDS = SleepFor MAX_SLEEP_SECONDS) /\
  (value t <> INT64_MIN -> value t <> INT64_MAX ->
     let diff_micros := sub64 (value t) (GetCurrentTimestamp w) in
     let seconds := div (of_int diff_micros) lit_1000000 in
     SleepUntil_row fuel t w = PerformSleep fuel seconds w /\
     is_finite seconds = true /\
     effective_wait (NormalizeSeconds seconds) = Some (clamp_rules seconds) /\
     (diff_micros <= 0 -> SleepUntil_row fuel t w = Some (Returned tt, w)) /\
     (int64_range (value t - GetCurrentTimestamp w) ->
      diff_micros = value t - GetCurrentTimestamp w)).
Proof.
  split; [|split].
  - intros Hmin. unfold SleepUntil_row. rewrite Hmin. reflexivity.
  - intros Hmax. unfold SleepUntil_row. rewrite Hmax. split; reflexivity.
  - intros Hmin Hmax diff_micros seconds.
    assert (Hrow : SleepUntil_row fuel t w = PerformSleep fuel seconds w).
    { unfold SleepUntil_row. apply Z.eqb_neq in Hmin, Hmax.
      rewrite Hmin, Hmax. reflexivity. }
    assert (Hfin : is_finite seconds = true) by apply timestamp_seconds_finite.
    split; [exact Hrow|]. split; [exact Hfin|].
    split; [apply clamp_rules_finite; exact Hfin|]. split.
    + intros Hd. rewrite Hrow. apply PerformSleep_early.
      rewrite (NormalizeSeconds_finite _ Hfin). unfold seconds.
      rewrite (micros_to_seconds_nonpositive _ Hd). reflexivity.
    + intros Hr. unfold diff_micros, sub64. apply wrap64_exact. exact Hr.
Qed.

(** C4 (the code departs from it): a target in the far past is not a
    no-op.  With the target one microsecond above the minimum of
    [int64_t] and the wall clock at 1.7e15 microseconds the subtraction
    leaves [int64_t] and wraps to a positive difference, which is clamped
    to [MAX_SLEEP_SECONDS]: the row enters the polling loop, sleeps slice
    after slice, and fails when the interrupt flag is raised, where a
    no-op would have returned. *)
Theorem sleep_until_far_past_overflows :
  let t := mkTimestamp (INT64_MIN + 1) in
  let w := mkWorld 0 1700000000000000 (Some 250000000) [] in
  value t <> INT64_MIN /\ value t <> INT64_MAX /\
  value t < GetCurrentTimestamp w /\
  sub64 (value t) (GetCurrentTimestamp w) = 9221672036854775809 /\
  NormalizeSeconds
    (div (of_int (sub64 (value t) (GetCurrentTimestamp w))) lit_1000000) =
    SleepFor MAX_SLEEP_SECONDS /\
  SleepUntil_row 5 t w =
    Some (Thrown InterruptException,
          mkWorld 300000000 1700000000000000 (Some 250000000)
            [check_interval; check_interval; check_interval]).
Proof.
  cbv zeta. repeat split; try (vm_compute; congruence).
Qed.

(** * Every call completes *)

Section RowLoopCompletes.

Context {A : Type}.
Variable body : nat -> A -> Exec unit.
Variable good : A -> Prop.
Hypothesis body_completes :
  forall x w, good x -> exists r, completes (fun fuel => body fuel x) w r.

Lemma for_each_row_completes (rows : Column A) :
  Forall (fun r => match r with Some x => good x | None => True end) rows ->
  forall w, exists r, completes (fun fuel => for_each_row (body fuel) rows) w r.
Proof.
  induction rows as [|[x|] rows IH]; intros Hrows w; cbn [for_each_row].
  - exists (Returned tt, w), 0%nat. reflexivity.
  - inversion Hrows as [|? ? Hx Hrest]; subst.
    destruct (body_completes x w Hx) as [[[[]|e] w1] [f1 H1]].
    + destruct (IH Hrest w1) as [r [f2 H2]].
      exists r, (Nat.max f1 f2). intros fuel Hf. unfold bind.
      rewrite H1 by lia. apply H2. lia.
    + exists (Thrown e, w1), f1. intros fuel Hf. unfold bind.
      rewrite H1 by lia. reflexivity.
  - inversion Hrows as [|? ? Hx Hrest]; subst. apply IH. exact Hrest.
Qed.

(** A function made of the row loop and the constant NULL result
    completes, and what it returns is NULL at every row. *)
Lemma function_completes (rows : Column A) (result : Vector) (w : World) :
  Forall (fun r => match r with Some x => good x | None => True end) rows ->
  exists r,
    completes (fun fuel => (for_each_row (body fuel) rows ;; return_null result)%exec) w r /\
    returns_all_null (Some r).
Proof.
  intros Hrows.
  destruct (for_each_row_completes rows Hrows w) as [[[[]|e] w1] [f1 H1]].
  - exists (Returned (SetNull true (SetVectorType CONSTANT_VECTOR result)), w1).
    split; [|intros i; reflexivity].
    exists f1. intros fuel Hf. rewrite return_null_after, H1 by lia. reflexivity.
  - exists (Thrown e, w1). split; [|exact I].
    exists f1. intros fuel Hf. rewrite return_null_after, H1 by lia. reflexivity.
Qed.

End RowLoopCompletes.

Lemma Forall_rows_trivial {A} (rows : Column A) :
  Forall (fun r => match r with Some _ => True | None => True end) rows.
Proof. apply Forall_forall. intros [x|] _; exact I. Qed.

(** * NULL rows and the result vector *)

Lemma return_null_all_null {A} (body : A -> Exec unit) (rows : Column A)
      (result : Vector) (w : World) :
  returns_all_null ((for_each_row body rows ;; return_null result)%exec w).
Proof.
  rewrite return_null_after.
  destruct (for_each_row body rows w) as [[[[]|e] w1]|]; cbn [returns_all_null];
    try exact I.
  intros i. reflexivity.
Qed.

Lemma return_null_skips_null {A} (body : A -> Exec unit) (rows : Column A)
      (result : Vector) (w : World) :
  (for_each_row body rows ;; return_null result)%exec w =
  (for_each_row body (filter is_valid_row rows) ;; return_null result)%exec w.
Proof.
  rewrite !return_null_after, <- for_each_row_skips_null. reflexivity.
Qed.

Lemma return_null_only_null {A} (body : A -> Exec unit) (n : nat)
      (result : Vector) (w : World) :
  (for_each_row body (repeat None n) ;; return_null result)%exec w =
  Some (Returned (SetNull true (SetVectorType CONSTANT_VECTOR result)), w).
Proof. rewrite return_null_after, for_each_row_all_null. reflexivity. Qed.

(** The first row of a batch, when it is not NULL, has its body run
    before anything else: the call goes on with the rest of the batch
    from the world the body returned in, and ends with the exception of
    the body when it throws. *)
Lemma return_null_cons_valid {A} (body : A -> Exec unit) (x : A) (rest : Column A)
      (result : Vector) (w : World) :
  (for_each_row body (Some x :: rest) ;; return_null result)%exec w =
  match body x w with
  | Some (Returned _, w1) => (for_each_row body rest ;; return_null result)%exec w1
  | Some (Thrown e, w1) => Some (Thrown e, w1)
  | None => None
  end.
Proof.
  cbn [for_each_row]. unfold bind.
  destruct (body x w) as [[[[]|e] w1]|]; reflexivity.
Qed.

(** A call that returned has run the body of every non-NULL row, and
    each of them returned. *)
Lemma return_null_returned {A} (body : A -> Exec unit) (rows : Column A)
      (result : Vector) (w w' : World) (v : Vector) (x : A) :
  (for_each_row body rows ;; return_null result)%exec w = Some (Returned v, w') ->
  In (Some x) rows ->
  exists w1 w2, body x w1 = Some (Returned tt, w2).
Proof.
  intros Hrun Hin. rewrite return_null_after in Hrun.
  destruct (for_each_row body rows w) as [[[[]|e] w1]|] eqn:Hloop; try discriminate.
  exact (for_each_row_returns body rows w w1 x Hloop Hin).
Qed.

Ltac rows_block body :=
  intros fuel;
  split; [apply return_null_all_null|];
  split; [apply return_null_skips_null|];
  split; [apply return_null_only_null|];
  split; [intros x rest w0; exact (return_null_cons_valid (body fuel) x rest _ w0)|];
  split; [intros rest w0; reflexivity|];
  intros v w' x; exact (return_null_returned (body fuel) _ _ _ w' v x).

(** C7: for each of the three functions and every batch, the call
    completes (it returns or it throws; the polling loops end), and the
    vector handed back by a call that returns is NULL at every row.  The
    NULL rows of the input take no part in the call - it is the call on
    the batch without them, so no wait is performed for them - and a
    batch of NULL rows only returns at once, the world untouched.  A
    non-NULL row is waited for: a batch that starts with one runs the
    wait of that row first, from the world of the call, then goes on
    with the rest of the batch from the world that wait returned in, and
    ends with the exception of the wait when it throws; a batch that
    starts with a NULL row is the rest of the batch.  So a call that
    returns the NULL vector has run the wait of every non-NULL row of
    the batch, and each of these waits returned. *)
Theorem output_always_null (result : Vector) (w : World)
        (seconds : Column double) (intervals : Column interval_t)
        (timestamps : Column timestamp_t) (n : nat) :
  valid_column seconds ->
  ((exists r, completes (fun fuel => SleepFunction fuel seconds result) w r /\
              returns_all_null (Some r)) /\
   forall fuel,
     returns_all_null (SleepFunction fuel seconds result w) /\
     SleepFunction fuel seconds result w =
       SleepFunction fuel (filter is_valid_row seconds) result w /\
     SleepFunction fuel (repeat None n) result w =
       Some (Returned (SetNull true (SetVectorType CONSTANT_VECTOR result)), w) /\
     (forall x rest w0,
         SleepFunction fuel (Some x :: rest) result w0 =
         match PerformSleep fuel x w0 with
         | Some (Returned _, w1) => SleepFunction fuel rest result w1
         | Some (Thrown e, w1) => Some (Thrown e, w1)
         | None => None
         end) /\
     (forall rest w0,
         SleepFunction fuel (None :: rest) result w0 = SleepFunction fuel rest result w0) /\
     (forall v w' x,
         SleepFunction fuel seconds result w = Some (Returned v, w') ->
         In (Some x) seconds ->
         exists w1 w2, PerformSleep fuel x w1 = Some (Returned tt, w2))) /\
  ((exists r, completes (fun fuel => SleepForFunction fuel intervals result) w r /\
              returns_all_null (Some r)) /\
   forall fuel,
     returns_all_null (SleepForFunction fuel intervals result w) /\
     SleepForFunction fuel intervals result w =
       SleepForFunction fuel (filter is_valid_row intervals) result w /\
     SleepForFunction fuel (repeat None n) result w =
       Some (Returned (SetNull true (SetVectorType CONSTANT_VECTOR result)), w) /\
     (forall x rest w0,
         SleepForFunction fuel (Some x :: rest) result w0 =
         match PerformSleep fuel (interval_seconds x) w0 with
         | Some (Returned _, w1) => SleepForFunction fuel rest result w1
         | Some (Thrown e, w1) => Some (Thrown e, w1)
         | None => None
         end) /\
     (forall rest w0,
         SleepForFunction fuel (None :: rest) result w0 = SleepForFunction fuel rest result w0) /\
     (forall v w' x,
         SleepForFunction fuel intervals result w = Some (Returned v, w') ->
         In (Some x) intervals ->
         exists w1 w2, PerformSleep fuel (interval_seconds x) w1 = Some (Returned tt, w2))) /\
  ((exists r, completes (fun fuel => SleepUntilFunction fuel timestamps result) w r /\
              returns_all_null (Some r)) /\
   forall fuel,
     returns_all_null (SleepUntilFunction fuel timestamps result w) /\
     SleepUntilFunction fuel timestamps result w =
       SleepUntilFunction fuel (filter is_valid_row timestamps) result w /\
     SleepUntilFunction fuel (repeat None n) result w =
       Some (Returned (SetNull true (SetVectorType CONSTANT_VECTOR result)), w) /\
     (forall x rest w0,
         SleepUntilFunction fuel (Some x :: rest) result w0 =
         match SleepUntil_row fuel x w0 with
         | Some (Returned _, w1) => SleepUntilFunction fuel rest result w1
         | Some (Thrown e, w1) => Some (Thrown e, w1)
         | None => None
         end) /\
     (forall rest w0,
         SleepUntilFunction fuel (None :: rest) result w0 = SleepUntilFunction fuel rest result w0) /\
     (forall v w' x,
         SleepUntilFunction fuel timestamps result w = Some (Returned v, w') ->
         In (Some x) timestamps ->
         exists w1 w2, SleepUntil_row fuel x w1 = Some (Returned tt, w2))) /\
  forall i : nat,
    RowIsNull (SetNull true (SetVectorType CONSTANT_VECTOR result)) i = true.
Proof.
  intros Hvalid.
  unfold SleepFunction, SleepForFunction, SleepUntilFunction.
  split; [|split; [|split]].
  - split.
    + apply (function_completes PerformSleep valid_double); [|exact Hvalid].
      intros x w1 Hx. apply PerformSleep_completes. exact Hx.
    + rows_block PerformSleep.
  - split.
    + apply (function_completes
               (fun fuel interval => PerformSleep fuel (interval_seconds interval))
               (fun _ => True)); [|apply Forall_rows_trivial].
      intros x w1 _. apply PerformSleep_completes, interval_seconds_valid.
    + rows_block (fun fuel interval => PerformSleep fuel (interval_seconds interval)).
  - split.
    + apply (function_completes SleepUntil_row (fun _ => True));
        [|apply Forall_rows_trivial].
      intros x w1 _. apply SleepUntil_row_completes.
    + rows_block SleepUntil_row.
  - intros i. reflexivity.
Qed.

Lemma output_always_null_witness :
  (exists r,
      completes (fun fuel => SleepFunction fuel [Some quarter_second; None] (fresh_vector 2))
        (mkWorld 0 0 None []) r /\
      returns_all_null (Some r)) /\
  SleepFunction 5 [Some quarter_second; None] (fresh_vector 2) (mkWorld 0 0 None []) =
    Some (Returned (SetNull true (SetVectorType CONSTANT_VECTOR (fresh_vector 2))),
          mkWorld 250000000 0 None
            [S754_finite false 6710886400000000 (-27); check_interval; check_interval]) /\
  exists w1 w2, PerformSleep 5 quarter_second w1 = Some (Returned tt, w2).
Proof.
  destruct (output_always_null (fresh_vector 2) (mkWorld 0 0 None [])
              [Some quarter_second; None] [] [] 0) as [[Hc Hf] _].
  - repeat constructor.
  - destruct (Hf 5%nat) as (_ & _ & _ & Hcons & Hnull & Hret).
    assert (Hrun :
      SleepFunction 5 [Some quarter_second; None] (fresh_vector 2) (mkWorld 0 0 None []) =
      Some (Returned (SetNull true (SetVectorType CONSTANT_VECTOR (fresh_vector 2))),
            mkWorld 250000000 0 None
              [S754_finite false 6710886400000000 (-27); check_interval; check_interval])).
    { rewrite Hcons. vm_compute. reflexivity. }
    split; [exact Hc|]. split; [exact Hrun|].
    apply (Hret _ _ quarter_second Hrun). left. reflexivity.
Defined.

(** * Calls that are never interrupted *)

Lemma sleep_slice_interrupt_at (end_time : double) (w : World) :
  interrupt_at (sleep_slice end_time w) = interrupt_at w.
Proof.
  unfold sleep_slice. destruct (ltb zero (sleep_duration_of end_time w)); reflexivity.
Qed.

Lemma PerformSleep_loop_uninterrupted (fuel : nat) (end_time : double) :
  forall w o w',
    interrupt_at w = None ->
    PerformSleep_loop fuel end_time w = Some (o, w') ->
    o = Returned tt /\ interrupt_at w' = None.
Proof.
  induction fuel as [|fuel IH]; intros w o w' Hw; cbn [PerformSleep_loop].
  - discriminate.
  - destruct (ltb (of_int (steady_now w)) end_time).
    + unfold bind, CheckInterruption, interrupted. rewrite Hw. cbn [ret].
      apply IH. rewrite sleep_slice_interrupt_at. exact Hw.
    + intros H; inversion H; subst. split; [reflexivity | exact Hw].
Qed.

Lemma PerformSleep_uninterrupted (fuel : nat) (s : double) (w w' : World)
      (o : outcome unit) :
  isnan s = false -> interrupt_at w = None ->
  PerformSleep fuel s w = Some (o, w') ->
  o = Returned tt /\ interrupt_at w' = None.
Proof.
  intros Hs Hw. unfold PerformSleep.
  destruct (NormalizeSeconds s) as [e| |d] eqn:Hn.
  - unfold NormalizeSeconds in Hn. rewrite Hs in Hn.
    destruct (leb _ zero); discriminate.
  - intros H; inversion H; subst. split; [reflexivity | exact Hw].
  - apply PerformSleep_loop_uninterrupted. exact Hw.
Qed.

Lemma for_each_row_uninterrupted (fuel : nat) (rows : Column double) :
  Forall (fun r => match r with Some x => isnan x = false | None => True end) rows ->
  forall w o w',
    interrupt_at w = None ->
    for_each_row (PerformSleep fuel) rows w = Some (o, w') ->
    o = Returned tt /\ interrupt_at w' = None.
Proof.
  induction rows as [|[x|] rows IH]; intros Hrows w o w' Hw; cbn [for_each_row].
  - intros H; inversion H; subst. split; [reflexivity | exact Hw].
  - inversion Hrows as [|? ? Hx Hrest]; subst. unfold bind.
    destruct (PerformSleep fuel x w) as [[o1 w1]|] eqn:Hrun; [|discriminate].
    destruct (PerformSleep_uninterrupted _ _ _ _ _ Hx Hw Hrun) as [-> Hw1].
    apply IH; assumption.
  - inversion Hrows as [|? ? Hx Hrest]; subst. apply IH; assumption.
Qed.

(** With no interrupt and no NaN before it, the first NaN row of a
    [sleep] batch is reached: the rows before it complete their waits,
    and the call then fails at that row, in the world they left. *)
Lemma sleep_first_nan_row_uninterrupted (pre post : Column double) (x : double)
      (result : Vector) (w : World) :
  valid_column pre ->
  Forall (fun r => match r with Some y => isnan y = false | None => True end) pre ->
  interrupt_at w = None -> isnan x = true ->
  exists w1,
    completes (fun fuel => for_each_row (PerformSleep fuel) pre) w (Returned tt, w1) /\
    completes (fun fuel => SleepFunction fuel (pre ++ Some x :: post) result) w
      (Thrown (InvalidInputException "Sleep duration cannot be NaN"), w1).
Proof.
  intros Hvalid Hnan Hw Hx.
  destruct (for_each_row_completes PerformSleep valid_double
              (fun y w1 Hy => PerformSleep_completes y w1 Hy) pre Hvalid w)
    as [[o w1] [f1 H1]].
  destruct (for_each_row_uninterrupted f1 pre Hnan w o w1 Hw (H1 f1 (le_n f1)))
    as [-> _].
  exists w1. split; [exists f1; exact H1|].
  exists f1. intros fuel Hf. unfold SleepFunction.
  rewrite return_null_after.
  rewrite (for_each_row_throws (PerformSleep fuel) pre post x _ w w1 w1 (H1 fuel Hf)
             (PerformSleep_nan fuel x w1 Hx)).
  reflexivity.
Qed.

(** * Cancellation *)

Lemma ltb_asym (x y : double) : ltb x y = true -> ltb y x = false.
Proof.
  intros H. destruct (ltb y x) eqn:Hyx; [|reflexivity].
  pose proof (ltb_true_leb_false _ _ H) as H1.
  pose proof (ltb_true_leb _ _ Hyx) as H2. congruence.
Qed.

(** No slice is longer than the check interval. *)
Lemma sleep_duration_at_most_interval (end_time : double) (w : World) :
  ltb check_interval (sleep_duration_of end_time w) = false.
Proof.
  unfold sleep_duration_of.
  destruct (ltb (sub end_time (of_int (steady_now w))) check_interval) eqn:H.
  - apply ltb_asym. exact H.
  - reflexivity.
Qed.

Lemma PerformSleep_loop_interrupted (n : nat) (end_time : double) :
  forall (fuel : nat) (w : World),
    (forall k, (k < n)%nat ->
       ltb (of_int (steady_now (after_slices k end_time w))) end_time = true /\
       interrupted (after_slices k end_time w) = false) ->
    ltb (of_int (steady_now (after_slices n end_time w))) end_time = true ->
    interrupted (after_slices n end_time w) = true ->
    (n < fuel)%nat ->
    PerformSleep_loop fuel end_time w =
    Some (Thrown InterruptException, after_slices n end_time w).
Proof.
  induction n as [|n IH]; intros fuel w Hbefore Hlt Hint Hfuel;
    (destruct fuel as [|fuel]; [lia|]); cbn [PerformSleep_loop after_slices] in *.
  - rewrite Hlt. unfold bind, CheckInterruption. rewrite Hint. reflexivity.
  - destruct (Hbefore 0%nat ltac:(lia)) as [H0 I0]. cbn [after_slices] in H0, I0.
    rewrite H0. unfold bind, CheckInterruption. rewrite I0. cbn [ret].
    apply IH; try assumption; try lia.
    intros k Hk. apply (Hbefore (S k)). lia.
Qed.

(** C6, as the code has it: a polling check is made only while the
    steady clock reads less than the deadline.  If at such a check -
    the [n]-th of a wait, none of the earlier ones having seen the flag -
    the interrupt flag is set, the wait fails there with the interrupt
    exception, in the world of that check (no further slice is slept),
    and the row loop it runs in stops with that exception: the rows
    after it are not started.  Two checks are at most one check interval
    apart, no slice being longer than that. *)
Theorem cancellation_at_polling_check (fuel n : nat) (end_time : double)
        (w : World) :
  (forall k, (k < n)%nat ->
     ltb (of_int (steady_now (after_slices k end_time w))) end_time = true /\
     interrupted (after_slices k end_time w) = false) ->
  ltb (of_int (steady_now (after_slices n end_time w))) end_time = true ->
  interrupted (after_slices n end_time w) = true ->
  (n < fuel)%nat ->
  PerformSleep_loop fuel end_time w =
    Some (Thrown InterruptException, after_slices n end_time w) /\
  (forall k, ltb check_interval
               (sleep_duration_of end_time (after_slices k end_time w)) = false) /\
  (forall (A : Type) (body : A -> Exec unit) (pre post : Column A) (x : A)
          (w0 : World),
      for_each_row body pre w0 = Some (Returned tt, w) ->
      body x w = PerformSleep_loop fuel end_time w ->
      for_each_row body (pre ++ Some x :: post) w0 =
      Some (Thrown InterruptException, after_slices n end_time w)).
Proof.
  intros Hbefore Hlt Hint Hfuel.
  pose proof (PerformSleep_loop_interrupted n end_time fuel w Hbefore Hlt Hint Hfuel)
    as Hloop.
  split; [exact Hloop|]. split.
  - intros k. apply sleep_duration_at_most_interval.
  - intros A body pre post x w0 Hpre Hx.
    apply (for_each_row_throws body pre post x _ w0 w); [exact Hpre|].
    rewrite Hx. exact Hloop.
Qed.

Lemma cancellation_at_polling_check_witness :
  PerformSleep_loop 5 (end_time_of 0 quarter_second) (mkWorld 0 0 (Some 150000000) []) =
  Some (Thrown InterruptException,
        mkWorld 200000000 0 (Some 150000000) [check_interval; check_interval]).
Proof.
  apply (cancellation_at_polling_check 5 2 (end_time_of 0 quarter_second)
           (mkWorld 0 0 (Some 150000000) [])).
  - intros k Hk. destruct k as [|[|k]]; [vm_compute; split; reflexivity .. | lia].
  - vm_compute. reflexivity.
  - vm_compute. reflexivity.
  - lia.
Defined.

(** C6 does not hold as worded: the flag is raised 220 ms into a wait of
    250 ms, the deadline still 30 ms ahead, yet the wait returns
    successfully - the flag is raised during the last slice, after which
    the clock has reached the deadline and the loop ends without another
    check. *)
Lemma cancellation_in_last_slice_missed :
  let w := mkWorld 0 0 (Some 220000000) [] in
  let end_time := end_time_of (steady_now w) quarter_second in
  NormalizeSeconds quarter_second = SleepFor quarter_second /\
  interrupted w = false /\
  ltb (of_int 220000000) end_time = true /\
  interrupted (after_slices 2 end_time w) = false /\
  interrupted (after_slices 3 end_time w) = true /\
  PerformSleep 5 quarter_second w =
    Some (Returned tt, after_slices 3 end_time w) /\
  steady (after_slices 3 end_time w) = 250000000.
Proof.
  cbv zeta. repeat split; vm_compute; reflexivity.
Qed.

(** * Signs and order of binary64 results *)

Module Binary64Order.

(** Rounding never loses magnitude: the result is not below the power of
    two the mantissa reached. *)
Lemma binary_round_aux_above (sx : bool) (m e : Z) (l : location) :
  0 <= m ->
  match binary_round_aux prec emax sx m e l with
  | S754_finite _ p e' => Zdigits2 m + e <= Zdigits2 (Zpos p) + e'
  | _ => True
  end.
Proof.
  intros Hm.
  destruct (binary_round_aux_trace sx m e l Hm)
    as (d1 & e2 & m2 & A1 & A2 & A3 & A4 & A5 & A6 & ->).
  destruct m2 as [|p|p]; try exact I.
  destruct (e2 <=? emax - prec); [|exact I].
  pose proof (Zdigits2_pos p). pose proof (Zdigits2_nonneg m).
  unfold SpecFloat.fexp, SpecFloat.emin, emax, prec in *. lia.
Qed.

(** The conversion of a non-zero 64-bit integer: finite, not zero, with
    the sign of the integer and an exponent of at least [-52]. *)
Lemma of_int64_nonzero (z : Z) :
  int64_range z -> z <> 0 ->
  exists m e, of_int z = S754_finite (z <? 0) m e /\ -52 <= e /\
              bounded prec emax m e = true.
Proof.
  intros Hr Hz.
  pose proof (of_int64_below z Hr) as Hb.
  pose proof (of_int_valid z) as Hv.
  assert (Hmag : match of_int z with
                 | S754_finite s p e' => s = (z <? 0) /\ 1 <= Zdigits2 (Zpos p) + e'
                 | S754_infinity _ => True
                 | _ => False
                 end).
  { unfold of_int. destruct z as [|q|q]; [congruence| |]; cbn [binary_normalize];
      unfold binary_round;
      destruct (shl_align q 0 _) as [mz ez] eqn:Hs;
      destruct (shl_align_fexp_spec _ _ _ _ Hs) as [H1 H2];
      pose proof (Zdigits2_pos q) as Hq;
      [ pose proof (binary_round_aux_nonzero false (Zpos mz) ez loc_Exact) as Hnz;
        pose proof (binary_round_aux_above false (Zpos mz) ez loc_Exact) as Hab
      | pose proof (binary_round_aux_nonzero true (Zpos mz) ez loc_Exact) as Hnz;
        pose proof (binary_round_aux_above true (Zpos mz) ez loc_Exact) as Hab ];
      (assert (He : SpecFloat.emin prec emax <= ez)
         by (unfold SpecFloat.fexp, SpecFloat.emin, emax, prec in *; lia));
      specialize (Hnz ltac:(lia) He); specialize (Hab ltac:(lia));
      destruct (binary_round_aux prec emax _ (Zpos mz) ez loc_Exact) as [s|s| |s p e'];
      try contradiction; try exact I;
      (split; [exact Hnz | rewrite Z.add_0_r in H2; lia]). }
  destruct (of_int z) as [s|s| |s p e'] eqn:Ho; cbn [below] in Hb; try contradiction.
  destruct Hmag as [-> Hd]. cbn [valid_binary] in Hv.
  destruct (bounded_spec _ _ Hv) as [Hc _].
  exists p, e'. split; [reflexivity|]. split; [|exact Hv].
  unfold SpecFloat.fexp, SpecFloat.emin, emax, prec in *. lia.
Qed.

(** The product of two finite numbers whose exponents add up to an
    exponent of the format is not zero. *)
Lemma mul_nonzero (sx sy : bool) (mx my : positive) (ex ey : Z) :
  SpecFloat.emin prec emax <= ex + ey ->
  match mul (S754_finite sx mx ex) (S754_finite sy my ey) with
  | S754_finite s _ _ | S754_infinity s => s = xorb sx sy
  | _ => False
  end.
Proof.
  intros He. unfold mul, SFmul.
  apply binary_round_aux_nonzero; [lia | exact He].
Qed.

Lemma leb_zero_l (x : double) :
  leb zero x = true <->
  isnan x = false /\ (signbit x = false \/ exists s, x = S754_zero s).
Proof.
  destruct x as [s|[]| |[] m e]; simpl; split; intros H;
    try discriminate; try reflexivity; try tauto;
    try (split; [reflexivity | right; eexists; reflexivity]);
    try (destruct H as [H1 [H2 | [s' H2]]]; discriminate).
Qed.

Lemma positive_nonneg (x : double) : ltb zero x = true -> leb zero x = true.
Proof. apply ltb_true_leb. Qed.

Lemma finite_signed_true_leb (x : double) : finite_signed true x -> leb x zero = true.
Proof. destruct x as [s|s| |s m e]; simpl; intros H; try contradiction; subst; reflexivity. Qed.

Lemma finite_signed_false_leb (x : double) : finite_signed false x -> leb zero x = true.
Proof. destruct x as [s|s| |s m e]; simpl; intros H; try contradiction; subst; reflexivity. Qed.

(** A sum of two numbers that are [<= 0] is [<= 0]. *)
Lemma add_nonpositive (x y : double) :
  leb x zero = true -> leb y zero = true -> leb (add x y) zero = true.
Proof.
  intros Hx Hy.
  destruct x as [sx|sx| |sx mx ex], y as [sy|sy| |sy my ey].
  1-15: repeat match goal with s : bool |- _ => destruct s end;
    first [discriminate Hx | discriminate Hy | reflexivity].
  destruct sx; [|discriminate Hx]. destruct sy; [|discriminate Hy].
  unfold add, SFadd. cbn [cond_Zopp].
  set (a := Zpos (fst (shl_align mx ex (Z.min ex ey)))).
  set (b := Zpos (fst (shl_align my ey (Z.min ex ey)))).
  assert (Ha : 0 < a) by (unfold a; lia). assert (Hb : 0 < b) by (unfold b; lia).
  destruct (- a + - b) as [|p|p] eqn:Hp; try lia.
  cbn [binary_normalize]. apply rounded_negative_leb_zero, binary_round_signed.
Qed.

(** A sum of two canonical numbers that are [>= 0] is [>= 0], and it is
    [> 0] as soon as one of them is. *)
Lemma add_nonnegative (x y : double) :
  valid_double x -> valid_double y ->
  leb zero x = true -> leb zero y = true ->
  leb zero (add x y) = true /\
  (ltb zero x = true \/ ltb zero y = true -> ltb zero (add x y) = true).
Proof.
  intros Vx Vy Hx Hy.
  destruct x as [sx|sx| |sx mx ex], y as [sy|sy| |sy my ey].
  1-15: repeat match goal with s : bool |- _ => destruct s end;
    first [discriminate Hx | discriminate Hy
          | split; [reflexivity | intros [H|H]; first [discriminate H | reflexivity]]].
  destruct sx; [discriminate Hx|]. destruct sy; [discriminate Hy|].
  unfold valid_double in Vx, Vy. cbn [valid_binary] in Vx, Vy.
  destruct (bounded_spec _ _ Vx) as [Cx _]. destruct (bounded_spec _ _ Vy) as [Cy _].
  assert (Hpos : ltb zero (add (S754_finite false mx ex) (S754_finite false my ey)) = true).
  { apply ltb_zero_positive. unfold add, SFadd. cbn [cond_Zopp].
    set (ez := Z.min ex ey).
    set (a := Zpos (fst (shl_align mx ex ez))).
    set (b := Zpos (fst (shl_align my ey ez))).
    assert (Ha : 0 < a) by (unfold a; lia). assert (Hb : 0 < b) by (unfold b; lia).
    assert (Hez : SpecFloat.emin prec emax <= ez)
      by (unfold ez, SpecFloat.fexp, SpecFloat.emin, emax, prec in *; lia).
    destruct (a + b) as [|p|p] eqn:Hp; try lia.
    cbn [binary_normalize].
    pose proof (binary_round_nonzero false p ez Hez) as Hnz.
    destruct (binary_round prec emax false p ez) as [s|s| |s m e]; try contradiction;
      subst; exact I. }
  split; [apply ltb_true_leb; exact Hpos | intros _; exact Hpos].
Qed.

(** Microseconds to seconds: a positive count gives a positive number of
    seconds - the quotient does not round to zero. *)
Lemma micros_to_seconds_positive (z : Z) :
  int64_range z -> 0 < z -> ltb zero (div (of_int z) lit_1000000) = true.
Proof.
  intros Hr Hz. apply ltb_zero_positive.
  destruct (of_int64_nonzero z Hr ltac:(lia)) as (m & e & Ho & He & Hb).
  replace (z <? 0) with false in Ho by (symmetry; apply Z.ltb_ge; lia).
  rewrite Ho. change lit_1000000 with (S754_finite false 8589934592000000 (-33)).
  unfold div, SFdiv.
  destruct (SFdiv_core_binary prec emax (Zpos m) e 8589934592000000 (-33))
    as [[q e'] l] eqn:Hc.
  destruct (SFdiv_core_binary_spec _ _ _ _ _ _ _ Hc) as (Hq & _ & _).
  destruct (SFdiv_core_binary_lower _ _ _ _ _ _ _ Hc) as (He1 & Hd).
  assert (He' : e' = Z.min (SpecFloat.fexp prec emax
                             (Zdigits2 (Zpos m) + e - (Zdigits2 8589934592000000 + -33)))
                          (e - -33)).
  { unfold SFdiv_core_binary in Hc.
    destruct (Z.div_eucl _ _) as [q0 r0] in Hc. inversion Hc. reflexivity. }
  change (Zdigits2 8589934592000000) with 53 in *.
  pose proof (Zdigits2_pos m) as Hm.
  pose proof (Zdigits2_nonneg q) as Hdq.
  assert (Hq1 : 1 <= Zdigits2 q)
    by (unfold SpecFloat.fexp, SpecFloat.emin, emax, prec in *; lia).
  assert (Hq0 : 0 < q).
  { destruct (Z.eq_dec q 0) as [->|]; [simpl in Hq1; lia | lia]. }
  pose proof (binary_round_aux_nonzero (xorb false false) q e' l Hq0
                ltac:(unfold SpecFloat.fexp, SpecFloat.emin, emax, prec in *; lia)) as Hnz.
  destruct (binary_round_aux prec emax (xorb false false) q e' l) as [s|s| |s p e''];
    try contradiction; subst; exact I.
Qed.

(** The order of the comparison operators is transitive. *)
Lemma leb_trans (x y z : double) :
  leb x y = true -> leb y z = true -> leb x z = true.
Proof.
  unfold leb, SFleb.
  destruct x as [sx|sx| |sx mx ex], y as [sy|sy| |sy my ey], z as [sz|sz| |sz mz ez];
    repeat match goal with s : bool |- _ => destruct s end;
    cbn [SFcompare]; try (intros; reflexivity); try (intros; discriminate);
    change (PosDef.Pos.compare_cont Eq) with Pos.compare;
    destruct (Z.compare_spec ex ey), (Z.compare_spec ey ez), (Z.compare_spec ex ez);
    try (intros; reflexivity); try (intros; discriminate); try lia;
    subst;
    destruct (Pos.compare_spec mx my), (Pos.compare_spec my mz), (Pos.compare_spec mx mz);
    cbn [CompOpp]; try (intros; reflexivity); try (intros; discriminate); lia.
Qed.

End Binary64Order.

Import Binary64Order.

(** * What a call does to the world *)

Lemma ticks_of_nonneg (d : double) : 0 <= ticks_of d.
Proof.
  destruct d as [s|s| |[] m e]; cbn [ticks_of]; try lia.
  destruct (0 <=? e) eqn:He.
  - apply Z.leb_le in He. pose proof (Z.pow_pos_nonneg 2 e ltac:(lia) He). nia.
  - apply Z.leb_gt in He.
    pose proof (Z.pow_pos_nonneg 2 (- e) ltac:(lia) ltac:(lia)).
    apply Z.div_pos; lia.
Qed.

Lemma slept_on_refl (w : World) : slept_on w w.
Proof. exists []. repeat split; first [reflexivity | constructor | lia]. Qed.

Lemma slept_on_trans (w1 w2 w3 : World) :
  slept_on w1 w2 -> slept_on w2 w3 -> slept_on w1 w3.
Proof.
  intros (l1 & S1 & F1 & C1 & I1 & O1) (l2 & S2 & F2 & C2 & I2 & O2).
  exists (l2 ++ l1). repeat split.
  - rewrite S2, S1, app_assoc. reflexivity.
  - apply Forall_app. split; assumption.
  - lia.
  - congruence.
  - congruence.
Qed.

Lemma sleep_slice_slept_on (end_time : double) (w : World) :
  slept_on w (sleep_slice end_time w).
Proof.
  unfold sleep_slice.
  destruct (ltb zero (sleep_duration_of end_time w)) eqn:Hpos; [|apply slept_on_refl].
  exists [sleep_duration_of end_time w]. cbn [sleep_for slept steady interrupt_at wall_offset].
  repeat split.
  - constructor; [|constructor].
    split; [exact Hpos | apply sleep_duration_at_most_interval].
  - pose proof (ticks_of_nonneg (sleep_duration_of end_time w)). lia.
Qed.

Lemma PerformSleep_loop_slept_on (fuel : nat) (end_time : double) :
  forall w o w', PerformSleep_loop fuel end_time w = Some (o, w') -> slept_on w w'.
Proof.
  induction fuel as [|fuel IH]; intros w o w'; cbn [PerformSleep_loop].
  - discriminate.
  - destruct (ltb (of_int (steady_now w)) end_time).
    + unfold bind, CheckInterruption. destruct (interrupted w); cbn [throw ret].
      * intros H; inversion H; subst. apply slept_on_refl.
      * intros H. eapply slept_on_trans; [apply sleep_slice_slept_on | eapply IH, H].
    + intros H; inversion H; subst. apply slept_on_refl.
Qed.

Lemma PerformSleep_slept_on (fuel : nat) (s : double) (w w' : World) (o : outcome unit) :
  PerformSleep fuel s w = Some (o, w') -> slept_on w w'.
Proof.
  unfold PerformSleep. destruct (NormalizeSeconds s).
  - intros H; inversion H; subst. apply slept_on_refl.
  - intros H; inversion H; subst. apply slept_on_refl.
  - apply PerformSleep_loop_slept_on.
Qed.

Lemma SleepUntil_row_slept_on (fuel : nat) (t : timestamp_t) (w w' : World)
      (o : outcome unit) :
  SleepUntil_row fuel t w = Some (o, w') -> slept_on w w'.
Proof.
  unfold SleepUntil_row.
  destruct (value t =? INT64_MIN).
  - intros H; inversion H; subst. apply slept_on_refl.
  - destruct (value t =? INT64_MAX); apply PerformSleep_slept_on.
Qed.

Lemma for_each_row_slept_on {A} (body : A -> Exec unit) :
  (forall x w o w', body x w = Some (o, w') -> slept_on w w') ->
  forall rows w o w', for_each_row body rows w = Some (o, w') -> slept_on w w'.
Proof.
  intros Hbody. induction rows as [|[x|] rows IH]; intros w o w'; cbn [for_each_row].
  - intros H; inversion H; subst. apply slept_on_refl.
  - unfold bind. destruct (body x w) as [[[[]|e] w1]|] eqn:Hx; try discriminate.
    + intros H. eapply slept_on_trans; [eapply Hbody, Hx | eapply IH, H].
    + intros H; inversion H; subst. eapply Hbody, Hx.
  - apply IH.
Qed.

Lemma function_slept_on {A} (body : A -> Exec unit) (rows : Column A)
      (result : Vector) (w w' : World) (o : outcome Vector) :
  (forall x w o w', body x w = Some (o, w') -> slept_on w w') ->
  (for_each_row body rows ;; return_null result)%exec w = Some (o, w') ->
  slept_on w w'.
Proof.
  intros Hbody. rewrite return_null_after.
  destruct (for_each_row body rows w) as [[[[]|e] w1]|] eqn:Hloop; try discriminate;
    intros H; inversion H; subst; eapply for_each_row_slept_on; eauto.
Qed.

(** What the polling loop leaves behind: a thrown interrupt was seen set;
    a return happens with the clock no longer before the deadline. *)
Lemma PerformSleep_loop_outcome (fuel : nat) (end_time : double) :
  forall w o w',
    PerformSleep_loop fuel end_time w = Some (o, w') ->
    (o = Returned tt /\ ltb (of_int (steady_now w')) end_time = false) \/
    (o = Thrown InterruptException /\ interrupted w' = true /\
     ltb (of_int (steady_now w')) end_time = true).
Proof.
  induction fuel as [|fuel IH]; intros w o w'; cbn [PerformSleep_loop].
  - discriminate.
  - destruct (ltb (of_int (steady_now w)) end_time) eqn:Hlt.
    + unfold bind, CheckInterruption. destruct (interrupted w) eqn:Hint; cbn [throw ret].
      * intros H; inversion H; subst. right. repeat split; assumption.
      * apply IH.
    + intros H; inversion H; subst. left. split; [reflexivity | exact Hlt].
Qed.

(** X1: [PerformSleep] always comes to an end.  For every binary64
    argument and every world the call completes, in one of three ways:
    it returns (the argument is not NaN); it throws the invalid-input
    exception, which happens exactly for NaN and leaves the world
    untouched; or it throws the interrupt exception, the interrupt flag
    being set in the world it leaves. *)
Theorem PerformSleep_terminates (s : double) (w : World) :
  valid_double s ->
  exists o w',
    completes (fun fuel => PerformSleep fuel s) w (o, w') /\
    ((o = Returned tt /\ isnan s = false) \/
     (o = Thrown (InvalidInputException "Sleep duration cannot be NaN") /\
      isnan s = true /\ w' = w) \/
     (o = Thrown InterruptException /\ isnan s = false /\ interrupted w' = true)).
Proof.
  intros Hs.
  destruct (PerformSleep_completes s w Hs) as [[o w'] [f0 Hf]].
  exists o, w'. split; [exists f0; exact Hf|].
  pose proof (Hf f0 (le_n f0)) as Hrun.
  destruct (isnan s) eqn:Hnan.
  - rewrite (PerformSleep_nan f0 s w Hnan) in Hrun. inversion Hrun; subst.
    right. left. repeat split.
  - unfold PerformSleep in Hrun.
    destruct (NormalizeSeconds s) as [e| |d] eqn:Hn.
    + unfold NormalizeSeconds in Hn. rewrite Hnan in Hn.
      destruct (leb _ zero); discriminate.
    + inversion Hrun; subst. left. split; reflexivity.
    + destruct (PerformSleep_loop_outcome _ _ _ _ _ Hrun) as [[-> _]|(-> & Hi & _)].
      * left. split; reflexivity.
      * right. right. repeat split. exact Hi.
Qed.

Lemma PerformSleep_terminates_witness :
  exists o w',
    completes (fun fuel => PerformSleep fuel quarter_second)
      (mkWorld 0 0 (Some 150000000) []) (o, w') /\
    ((o = Returned tt /\ isnan quarter_second = false) \/
     (o = Thrown (InvalidInputException "Sleep duration cannot be NaN") /\
      isnan quarter_second = true /\ w' = mkWorld 0 0 (Some 150000000) []) \/
     (o = Thrown InterruptException /\ isnan quarter_second = false /\
      interrupted w' = true)).
Proof.
  apply (PerformSleep_terminates quarter_second (mkWorld 0 0 (Some 150000000) [])).
  reflexivity.
Defined.

(** X2: [PerformSleep] returns no earlier than its deadline.  When a call
    returns after entering the polling loop, the steady clock no longer
    reads less than the deadline computed at entry; a call that returns
    without entering the loop leaves the world as it was. *)
Theorem PerformSleep_returns_at_deadline (fuel : nat) (s : double) (w w' : World) :
  PerformSleep fuel s w = Some (Returned tt, w') ->
  match NormalizeSeconds s with
  | SleepFor d => ltb (of_int (steady_now w')) (end_time_of (steady_now w) d) = false
  | ReturnEarly => w' = w
  | Rejected _ => False
  end.
Proof.
  unfold PerformSleep. destruct (NormalizeSeconds s) as [e| |d].
  - discriminate.
  - intros H; inversion H; reflexivity.
  - intros H.
    destruct (PerformSleep_loop_outcome _ _ _ _ _ H) as [[_ Hd]|(Ho & _)];
      [exact Hd | discriminate].
Qed.

Lemma PerformSleep_returns_at_deadline_witness :
  ltb (of_int 250000000) (end_time_of 0 quarter_second) = false.
Proof.
  assert (H : PerformSleep 5 quarter_second (mkWorld 0 0 None []) =
              Some (Returned tt,
                    mkWorld 250000000 0 None
                      [S754_finite false 6710886400000000 (-27);
                       check_interval; check_interval]))
    by (vm_compute; reflexivity).
  exact (PerformSleep_returns_at_deadline 5 quarter_second _ _ H).
Defined.

(** X3: whatever one of the three functions does to the world, it does by
    calls of [sleep_for] with a strictly positive argument of at most the
    check interval.  Whether the call returns or throws, the log has
    only grown by such calls, the steady clock has not gone back, and the
    interrupt flag's schedule is as the host set it: no call sleeps for a
    zero or negative slice, and none writes the flag. *)
Theorem calls_only_sleep_slices (fuel : nat) (result : Vector) (w w' : World)
        (o : outcome Vector) (seconds : Column double)
        (intervals : Column interval_t) (timestamps : Column timestamp_t) :
  SleepFunction fuel seconds result w = Some (o, w') \/
  SleepForFunction fuel intervals result w = Some (o, w') \/
  SleepUntilFunction fuel timestamps result w = Some (o, w') ->
  slept_on w w'.
Proof.
  unfold SleepFunction, SleepForFunction, SleepUntilFunction.
  intros [H|[H|H]]; eapply function_slept_on; try exact H.
  - intros x w1 o1 w2. apply PerformSleep_slept_on.
  - intros x w1 o1 w2. apply PerformSleep_slept_on.
  - intros x w1 o1 w2. apply SleepUntil_row_slept_on.
Qed.

Lemma calls_only_sleep_slices_witness :
  slept_on (mkWorld 0 0 (Some 150000000) [])
           (mkWorld 200000000 0 (Some 150000000) [check_interval; check_interval]).
Proof.
  apply (calls_only_sleep_slices 5 (fresh_vector 2) _ _ (Thrown InterruptException)
           [Some quarter_second; None] [] []).
  left. vm_compute. reflexivity.
Defined.

(** X4: [sleep] fails in two ways only.  If a call of [SleepFunction]
    throws, it throws either the interrupt exception, the flag being set
    in the world it leaves, or the invalid-input exception with the NaN
    message, and then some non-NULL row of the batch is NaN: a batch
    without NaN rows can only fail by interruption. *)
Theorem sleep_throws_only (fuel : nat) (args : Column double) (result : Vector)
        (w w' : World) (e : Exception) :
  SleepFunction fuel args result w = Some (Thrown e, w') ->
  (e = InterruptException /\ interrupted w' = true) \/
  (e = InvalidInputException "Sleep duration cannot be NaN" /\
   exists x, In (Some x) args /\ isnan x = true).
Proof.
  unfold SleepFunction. rewrite return_null_after.
  destruct (for_each_row (PerformSleep fuel) args w) as [[[[]|e0] w1]|] eqn:Hloop;
    try discriminate.
  intros H; inversion H; subst.
  destruct (for_each_row_thrown _ _ _ _ _ Hloop) as (x & wx & Hin & Hx).
  destruct (isnan x) eqn:Hnan.
  - rewrite (PerformSleep_nan fuel x wx Hnan) in Hx. inversion Hx; subst.
    right. split; [reflexivity|]. exists x. split; assumption.
  - left. unfold PerformSleep in Hx.
    destruct (NormalizeSeconds x) as [e1| |d] eqn:Hn.
    + unfold NormalizeSeconds in Hn. rewrite Hnan in Hn.
      destruct (leb _ zero); discriminate.
    + discriminate.
    + destruct (PerformSleep_loop_outcome _ _ _ _ _ Hx) as [[Ho _]|(Ho & Hi & _)];
        [discriminate|]. inversion Ho; subst. split; [reflexivity | exact Hi].
Qed.

Lemma sleep_throws_only_witness :
  (InvalidInputException "Sleep duration cannot be NaN" = InterruptException /\
   interrupted (mkWorld 0 0 None []) = true) \/
  (InvalidInputException "Sleep duration cannot be NaN" =
     InvalidInputException "Sleep duration cannot be NaN" /\
   exists x, In (Some x) [None; Some nan; Some quarter_second] /\ isnan x = true).
Proof.
  apply (sleep_throws_only 5 [None; Some nan; Some quarter_second] (fresh_vector 3)
           (mkWorld 0 0 None []) (mkWorld 0 0 None [])).
  vm_compute. reflexivity.
Defined.

(** * Calls in a context that is never interrupted *)

Section RowLoopUninterrupted.

Context {A : Type}.
Variable body : nat -> A -> Exec unit.
Variable good : A -> Prop.
Hypothesis body_completes :
  forall x w, good x -> exists r, completes (fun fuel => body fuel x) w r.
Hypothesis body_uninterrupted :
  forall fuel x w o w',
    good x -> interrupt_at w = None -> body fuel x w = Some (o, w') ->
    o = Returned tt /\ interrupt_at w' = None.

Lemma rows_uninterrupted (fuel : nat) (rows : Column A) :
  Forall (fun r => match r with Some x => good x | None => True end) rows ->
  forall w o w',
    interrupt_at w = None ->
    for_each_row (body fuel) rows w = Some (o, w') ->
    o = Returned tt /\ interrupt_at w' = None.
Proof.
  induction rows as [|[x|] rows IH]; intros Hrows w o w' Hw; cbn [for_each_row].
  - intros H; inversion H; subst. split; [reflexivity | exact Hw].
  - inversion Hrows as [|? ? Hx Hrest]; subst. unfold bind.
    destruct (body fuel x w) as [[o1 w1]|] eqn:Hrun; [|discriminate].
    destruct (body_uninterrupted _ _ _ _ _ Hx Hw Hrun) as [-> Hw1].
    apply IH; assumption.
  - inversion Hrows as [|? ? Hx Hrest]; subst. apply IH; assumption.
Qed.

Lemma function_returns_uninterrupted (rows : Column A) (result : Vector) (w : World) :
  Forall (fun r => match r with Some x => good x | None => True end) rows ->
  interrupt_at w = None ->
  exists w1,
    completes (fun fuel => (for_each_row (body fuel) rows ;; return_null result)%exec) w
      (Returned (SetNull true (SetVectorType CONSTANT_VECTOR result)), w1) /\
    interrupt_at w1 = None.
Proof.
  intros Hrows Hw.
  destruct (for_each_row_completes body good body_completes rows Hrows w)
    as [[o w1] [f1 H1]].
  destruct (rows_uninterrupted f1 rows Hrows w o w1 Hw (H1 f1 (le_n f1))) as [-> Hw1].
  exists w1. split; [|exact Hw1].
  exists f1. intros fuel Hf. rewrite return_null_after, H1 by exact Hf. reflexivity.
Qed.

End RowLoopUninterrupted.

Lemma SleepUntil_row_uninterrupted (fuel : nat) (t : timestamp_t) (w w' : World)
      (o : outcome unit) :
  interrupt_at w = None -> SleepUntil_row fuel t w = Some (o, w') ->
  o = Returned tt /\ interrupt_at w' = None.
Proof.
  intros Hw. unfold SleepUntil_row.
  destruct (value t =? INT64_MIN).
  - intros H; inversion H; subst. split; [reflexivity | exact Hw].
  - destruct (value t =? INT64_MAX).
    + apply PerformSleep_uninterrupted; [reflexivity | exact Hw].
    + apply PerformSleep_uninterrupted; [|exact Hw].
      apply is_finite_not_nan, timestamp_seconds_finite.
Qed.

(** X5: without an interrupt every call succeeds.  In a context whose
    interrupt flag is never set, [sleep_for] on intervals of the widths
    of [interval_t] and [sleep_until] on any timestamps complete by
    returning the constant NULL vector, and so does [sleep] on a batch of
    binary64 values none of which is NaN. *)
Theorem uninterrupted_calls_return (result : Vector) (w : World)
        (seconds : Column double) (intervals : Column interval_t)
        (timestamps : Column timestamp_t) :
  interrupt_at w = None ->
  valid_column seconds -> nan_free seconds -> wf_intervals intervals ->
  (exists w1,
      completes (fun fuel => SleepFunction fuel seconds result) w
        (Returned (SetNull true (SetVectorType CONSTANT_VECTOR result)), w1) /\
      interrupt_at w1 = None) /\
  (exists w1,
      completes (fun fuel => SleepForFunction fuel intervals result) w
        (Returned (SetNull true (SetVectorType CONSTANT_VECTOR result)), w1) /\
      interrupt_at w1 = None) /\
  (exists w1,
      completes (fun fuel => SleepUntilFunction fuel timestamps result) w
        (Returned (SetNull true (SetVectorType CONSTANT_VECTOR result)), w1) /\
      interrupt_at w1 = None).
Proof.
  intros Hw Hvalid Hnan Hwf.
  unfold SleepFunction, SleepForFunction, SleepUntilFunction.
  split; [|split].
  - apply (function_returns_uninterrupted PerformSleep
             (fun x => valid_double x /\ isnan x = false)).
    + intros x w1 [Hx _]. apply PerformSleep_completes. exact Hx.
    + intros fuel x w1 o w2 [_ Hx]. apply PerformSleep_uninterrupted. exact Hx.
    + unfold valid_column, nan_free in *. rewrite Forall_forall in *.
      intros [x|] Hin; [|exact I]. split; [apply (Hvalid _ Hin) | apply (Hnan _ Hin)].
    + exact Hw.
  - apply (function_returns_uninterrupted
             (fun fuel interval => PerformSleep fuel (interval_seconds interval))
             interval_wf).
    + intros x w1 _. apply PerformSleep_completes, interval_seconds_valid.
    + intros fuel x w1 o w2 Hx. apply PerformSleep_uninterrupted.
      eapply below_not_nan, interval_seconds_below, Hx.
    + exact Hwf.
    + exact Hw.
  - apply (function_returns_uninterrupted SleepUntil_row (fun _ => True)).
    + intros x w1 _. apply SleepUntil_row_completes.
    + intros fuel x w1 o w2 _. apply SleepUntil_row_uninterrupted.
    + apply Forall_rows_trivial.
    + exact Hw.
Qed.

Lemma uninterrupted_calls_return_witness :
  exists w1,
    completes
      (fun fuel => SleepForFunction fuel [Some (mkInterval 0 0 250000); None] (fresh_vector 2))
      (mkWorld 0 0 None [])
      (Returned (SetNull true (SetVectorType CONSTANT_VECTOR (fresh_vector 2))), w1) /\
    interrupt_at w1 = None.
Proof.
  destruct (uninterrupted_calls_return (fresh_vector 2) (mkWorld 0 0 None [])
              [Some quarter_second] [Some (mkInterval 0 0 250000); None] [])
    as (_ & H & _).
  - reflexivity.
  - repeat constructor.
  - repeat constructor.
  - repeat constructor; vm_compute; discriminate.
  - exact H.
Defined.

(** * Batches in pieces *)

Lemma function_app {A} (body : A -> Exec unit) (pre post : Column A)
      (result : Vector) (w : World) :
  (for_each_row body (pre ++ post) ;; return_null result)%exec w =
  match (for_each_row body pre ;; return_null result)%exec w with
  | Some (Returned _, w1) => (for_each_row body post ;; return_null result)%exec w1
  | Some (Thrown e, w1) => Some (Thrown e, w1)
  | None => None
  end.
Proof.
  rewrite !return_null_after, for_each_row_app.
  destruct (for_each_row body pre w) as [[[[]|e] w1]|]; [|reflexivity|reflexivity].
  rewrite return_null_after. reflexivity.
Qed.

(** X6: a batch can be run in pieces.  For each of the three functions,
    the call on a batch [pre ++ post] is the call on [pre] followed, if
    it returned, by the call on [post] in the world [pre] left; if the
    call on [pre] throws, that is the outcome and [post] is not looked
    at. *)
Theorem batch_in_pieces (fuel : nat) (result : Vector) (w : World)
        (s1 s2 : Column double) (i1 i2 : Column interval_t)
        (t1 t2 : Column timestamp_t) :
  SleepFunction fuel (s1 ++ s2) result w =
    match SleepFunction fuel s1 result w with
    | Some (Returned _, w1) => SleepFunction fuel s2 result w1
    | Some (Thrown e, w1) => Some (Thrown e, w1)
    | None => None
    end /\
  SleepForFunction fuel (i1 ++ i2) result w =
    match SleepForFunction fuel i1 result w with
    | Some (Returned _, w1) => SleepForFunction fuel i2 result w1
    | Some (Thrown e, w1) => Some (Thrown e, w1)
    | None => None
    end /\
  SleepUntilFunction fuel (t1 ++ t2) result w =
    match SleepUntilFunction fuel t1 result w with
    | Some (Returned _, w1) => SleepUntilFunction fuel t2 result w1
    | Some (Thrown e, w1) => Some (Thrown e, w1)
    | None => None
    end.
Proof.
  unfold SleepFunction, SleepForFunction, SleepUntilFunction.
  repeat split; apply function_app.
Qed.

(** * Past and future targets, negative and positive intervals *)

(** The seconds handed to [PerformSleep] are positive and finite: the
    loop is entered, with a duration in [(0, MAX_SLEEP_SECONDS]]. *)
Lemma NormalizeSeconds_positive (s : double) :
  is_finite s = true -> ltb zero s = true ->
  exists d,
    NormalizeSeconds s = SleepFor d /\ ltb zero d = true /\
    leb d MAX_SLEEP_SECONDS = true.
Proof.
  intros Hfin Hpos. rewrite (NormalizeSeconds_finite s Hfin).
  rewrite (ltb_true_leb_false _ _ Hpos).
  destruct (ltb MAX_SLEEP_SECONDS s) eqn:Hlt.
  - exists MAX_SLEEP_SECONDS. repeat split.
  - exists s. split; [reflexivity|]. split; [exact Hpos|].
    apply ltb_false_leb; [reflexivity | apply is_finite_not_nan; exact Hfin | exact Hlt].
Qed.

(** X7: [sleep_until] tells past from future.  For a target that is
    neither sentinel and whose distance from the current timestamp fits
    [int64_t]: a target at or before the current timestamp makes the row
    return at once, the world untouched; a target after it - be it by one
    microsecond - makes the row enter the polling loop, with a duration
    that is positive and at most [MAX_SLEEP_SECONDS]. *)
Theorem sleep_until_past_or_future (t : timestamp_t) (w : World) :
  value t <> INT64_MIN -> value t <> INT64_MAX ->
  int64_range (value t - GetCurrentTimestamp w) ->
  (value t <= GetCurrentTimestamp w ->
     forall fuel, SleepUntil_row fuel t w = Some (Returned tt, w)) /\
  (GetCurrentTimestamp w < value t ->
     exists d,
       NormalizeSeconds
         (div (of_int (value t - GetCurrentTimestamp w)) lit_1000000) = SleepFor d /\
       ltb zero d = true /\ leb d MAX_SLEEP_SECONDS = true /\
       forall fuel,
         SleepUntil_row fuel t w =
         PerformSleep_loop fuel (end_time_of (steady_now w) d) w).
Proof.
  intros Hmin Hmax Hr.
  assert (Hdiff : sub64 (value t) (GetCurrentTimestamp w) =
                  value t - GetCurrentTimestamp w)
    by (unfold sub64; apply wrap64_exact; exact Hr).
  assert (Hrow : forall fuel,
             SleepUntil_row fuel t w =
             PerformSleep fuel
               (div (of_int (value t - GetCurrentTimestamp w)) lit_1000000) w).
  { intros fuel. unfold SleepUntil_row. apply Z.eqb_neq in Hmin, Hmax.
    rewrite Hmin, Hmax, Hdiff. reflexivity. }
  assert (Hfin : is_finite (div (of_int (value t - GetCurrentTimestamp w)) lit_1000000)
                 = true)
    by (apply (below_is_finite 99), micros_to_seconds_below; exact Hr).
  split.
  - intros Hpast fuel. rewrite Hrow. apply PerformSleep_early.
    rewrite (NormalizeSeconds_finite _ Hfin).
    rewrite (micros_to_seconds_nonpositive (value t - GetCurrentTimestamp w)
               ltac:(lia)). reflexivity.
  - intros Hfuture.
    destruct (NormalizeSeconds_positive _ Hfin
                (micros_to_seconds_positive (value t - GetCurrentTimestamp w) Hr
                   ltac:(lia))) as (d & Hn & Hd & HM).
    exists d. repeat split; try assumption.
    intros fuel. rewrite Hrow. unfold PerformSleep. rewrite Hn. reflexivity.
Qed.

Lemma sleep_until_past_or_future_witness :
  exists d,
    NormalizeSeconds
      (div (of_int (1700000000000001
                    - GetCurrentTimestamp (mkWorld 0 1700000000000000 None [])))
           lit_1000000) = SleepFor d /\
    ltb zero d = true /\ leb d MAX_SLEEP_SECONDS = true /\
    forall fuel,
      SleepUntil_row fuel (mkTimestamp 1700000000000001)
        (mkWorld 0 1700000000000000 None []) =
      PerformSleep_loop fuel
        (end_time_of (steady_now (mkWorld 0 1700000000000000 None [])) d)
        (mkWorld 0 1700000000000000 None []).
Proof.
  destruct (sleep_until_past_or_future (mkTimestamp 1700000000000001)
              (mkWorld 0 1700000000000000 None [])) as [_ H].
  - vm_compute. discriminate.
  - vm_compute. discriminate.
  - vm_compute. split; discriminate.
  - apply H. vm_compute. reflexivity.
Defined.

(** An integer scaled by a positive literal keeps its sign. *)
Lemma mul_of_int_sign (z : Z) (my : positive) (ey : Z) :
  int64_range z -> SpecFloat.emin prec emax + 52 <= ey ->
  (z <= 0 -> leb (mul (of_int z) (S754_finite false my ey)) zero = true) /\
  (0 <= z -> leb zero (mul (of_int z) (S754_finite false my ey)) = true) /\
  (0 < z -> ltb zero (mul (of_int z) (S754_finite false my ey)) = true).
Proof.
  intros Hr Hey.
  destruct (Z.eq_dec z 0) as [->|Hz].
  - repeat split; intros; try reflexivity; lia.
  - destruct (of_int64_nonzero z Hr Hz) as (m & e & Ho & He & _). rewrite Ho.
    pose proof (mul_nonzero (z <? 0) false m my e ey ltac:(lia)) as Hnz.
    rewrite xorb_false_r in Hnz.
    split; [|split]; intros Hsign.
    + replace (z <? 0) with true in * by (symmetry; apply Z.ltb_lt; lia).
      destruct (mul _ _) as [s|s| |s p e']; try contradiction; subst; reflexivity.
    + replace (z <? 0) with false in * by (symmetry; apply Z.ltb_ge; lia).
      destruct (mul _ _) as [s|s| |s p e']; try contradiction; subst; reflexivity.
    + replace (z <? 0) with false in * by (symmetry; apply Z.ltb_ge; lia).
      destruct (mul _ _) as [s|s| |s p e']; try contradiction; subst; reflexivity.
Qed.

Lemma int32_in_int64 (z : Z) : int32_range z -> int64_range z.
Proof.
  unfold int32_range, int64_range, INT32_MIN, INT32_MAX, INT64_MIN, INT64_MAX. lia.
Qed.

(** X8: the sign of an interval decides whether [sleep_for] sleeps.  For
    an interval of the widths of [interval_t]: if none of months, days
    and microseconds is positive the row returns at once, the world
    untouched; if none is negative and one is positive - be it one
    microsecond - the row enters the polling loop, with a duration that
    is positive and at most [MAX_SLEEP_SECONDS]. *)
Theorem sleep_for_sign (i : interval_t) :
  interval_wf i ->
  (months i <= 0 -> days i <= 0 -> micros i <= 0 ->
     NormalizeSeconds (interval_seconds i) = ReturnEarly /\
     forall fuel w, PerformSleep fuel (interval_seconds i) w = Some (Returned tt, w)) /\
  (0 <= months i -> 0 <= days i -> 0 <= micros i ->
   0 < months i + days i + micros i ->
     exists d,
       NormalizeSeconds (interval_seconds i) = SleepFor d /\
       ltb zero d = true /\ leb d MAX_SLEEP_SECONDS = true /\
       forall fuel w,
         PerformSleep fuel (interval_seconds i) w =
         PerformSleep_loop fuel (end_time_of (steady_now w) d) w).
Proof.
  intros Hwf. pose proof Hwf as (Hm & Hd & Hu).
  pose proof (below_is_finite _ _ (interval_seconds_below i Hwf)) as Hfin.
  change lit_86400 with (S754_finite false 5937362789990400 (-36)) in *.
  change lit_2592000 with (S754_finite false 5566277615616000 (-31)) in *.
  destruct (mul_of_int_sign (days i) 5937362789990400 (-36) (int32_in_int64 _ Hd)
              ltac:(unfold SpecFloat.emin, emax, prec; lia)) as (Da & Db & Dc).
  destruct (mul_of_int_sign (months i) 5566277615616000 (-31) (int32_in_int64 _ Hm)
              ltac:(unfold SpecFloat.emin, emax, prec; lia)) as (Ma & Mb & Mc).
  split.
  - intros Hm0 Hd0 Hu0.
    assert (Hle : leb (interval_seconds i) zero = true).
    { unfold interval_seconds.
      change lit_86400 with (S754_finite false 5937362789990400 (-36)).
      change lit_2592000 with (S754_finite false 5566277615616000 (-31)).
      apply add_nonpositive; [apply add_nonpositive; auto|].
      apply micros_to_seconds_nonpositive; exact Hu0. }
    assert (Hn : NormalizeSeconds (interval_seconds i) = ReturnEarly)
      by (rewrite (NormalizeSeconds_finite _ Hfin), Hle; reflexivity).
    split; [exact Hn | apply PerformSleep_early; exact Hn].
  - intros Hm0 Hd0 Hu0 Hsum.
    assert (Hpos : ltb zero (interval_seconds i) = true).
    { unfold interval_seconds.
      change lit_86400 with (S754_finite false 5937362789990400 (-36)).
      change lit_2592000 with (S754_finite false 5566277615616000 (-31)).
      set (a := mul (of_int (days i)) (S754_finite false 5937362789990400 (-36))) in *.
      set (b := mul (of_int (months i)) (S754_finite false 5566277615616000 (-31))) in *.
      set (c := div (of_int (micros i)) lit_1000000).
      assert (Va : valid_double a) by (apply mul_valid; [apply of_int_valid | reflexivity]).
      assert (Vb : valid_double b) by (apply mul_valid; [apply of_int_valid | reflexivity]).
      assert (Vc : valid_double c) by apply div_valid.
      assert (Cn : leb zero c = true /\ (0 < micros i -> ltb zero c = true)).
      { unfold c. destruct (Z.eq_dec (micros i) 0) as [->|Hnz].
        - split; [reflexivity | lia].
        - pose proof (micros_to_seconds_positive (micros i) Hu ltac:(lia)) as Hc.
          split; [apply ltb_true_leb; exact Hc | intros _; exact Hc]. }
      destruct Cn as [Cn Cp].
      destruct (add_nonnegative a b Va Vb (Db Hd0) (Mb Hm0)) as [ABn ABp].
      destruct (add_nonnegative (add a b) c (add_valid _ _ Va Vb) Vc ABn Cn) as [_ Hp].
      apply Hp.
      destruct (Z_lt_le_dec 0 (micros i)) as [Hup|Hu1]; [right; auto|].
      left. apply ABp.
      destruct (Z_lt_le_dec 0 (days i)) as [Hdp|Hd1]; [left; auto|].
      right. apply Mc. lia. }
    destruct (NormalizeSeconds_positive _ Hfin Hpos) as (d & Hn & Hd1 & HM).
    exists d. repeat split; try assumption.
    intros fuel w. unfold PerformSleep. rewrite Hn. reflexivity.
Qed.

Lemma sleep_for_sign_witness :
  exists d,
    NormalizeSeconds (interval_seconds (mkInterval 0 0 1)) = SleepFor d /\
    ltb zero d = true /\ leb d MAX_SLEEP_SECONDS = true /\
    forall fuel w,
      PerformSleep fuel (interval_seconds (mkInterval 0 0 1)) w =
      PerformSleep_loop fuel (end_time_of (steady_now w) d) w.
Proof.
  destruct (sleep_for_sign (mkInterval 0 0 1)) as [_ H].
  - unfold interval_wf, int32_range, int64_range, INT32_MIN, INT32_MAX,
      INT64_MIN, INT64_MAX. simpl. lia.
  - apply H; simpl; lia.
Defined.

(** * Longer requests, longer waits *)

(** The wait of an argument that is neither NaN nor negative infinity,
    by cases on the argument itself. *)
Lemma effective_wait_cases (s : double) :
  isnan s = false -> s <> ninf ->
  exists d,
    effective_wait (NormalizeSeconds s) = Some d /\
    leb zero d = true /\ leb d MAX_SLEEP_SECONDS = true /\
    (leb s zero = true -> d = zero) /\
    (leb s zero = false -> ltb MAX_SLEEP_SECONDS s = true -> d = MAX_SLEEP_SECONDS) /\
    (leb s zero = false -> ltb MAX_SLEEP_SECONDS s = false -> d = s).
Proof.
  intros Hnan Hninf.
  destruct s as [sg|[]| |[] m e]; try discriminate;
    try (exfalso; apply Hninf; reflexivity).
  - exists zero. destruct sg; repeat split; try reflexivity; try discriminate.
  - exists MAX_SLEEP_SECONDS. repeat split; try reflexivity; try discriminate.
  - exists zero. repeat split; try reflexivity; try discriminate.
  - set (s := S754_finite false m e).
    rewrite (NormalizeSeconds_finite s eq_refl).
    change (leb s zero) with false. cbn iota.
    destruct (ltb MAX_SLEEP_SECONDS s) eqn:Hlt.
    + exists MAX_SLEEP_SECONDS. repeat split; try reflexivity; try discriminate.
    + exists s. repeat split; try reflexivity; try discriminate.
      apply ltb_false_leb; [reflexivity | reflexivity | exact Hlt].
Qed.

(** X9: a longer request never gives a shorter wait.  If [s1 <= s2] as
    doubles, [s1] not being negative infinity, then both arguments are
    accepted by the normalisation at the head of [PerformSleep] and the
    wait it commits to for [s1] is at most the one for [s2]. *)
Theorem wait_monotone (s1 s2 : double) :
  s1 <> ninf -> leb s1 s2 = true ->
  exists d1 d2,
    effective_wait (NormalizeSeconds s1) = Some d1 /\
    effective_wait (NormalizeSeconds s2) = Some d2 /\
    leb d1 d2 = true.
Proof.
  intros Hninf Hle.
  pose proof (leb_not_nan_l _ _ Hle) as N1.
  pose proof (leb_not_nan_r _ _ Hle) as N2.
  assert (Hninf2 : s2 <> ninf).
  { intros ->. apply Hninf.
    destruct s1 as [sg|[]| |[] m e]; try discriminate; reflexivity. }
  destruct (effective_wait_cases s1 N1 Hninf) as (d1 & E1 & P1 & M1 & Z1 & C1 & K1).
  destruct (effective_wait_cases s2 N2 Hninf2) as (d2 & E2 & P2 & M2 & Z2 & C2 & K2).
  exists d1, d2. split; [exact E1|]. split; [exact E2|].
  destruct (leb s2 zero) eqn:H2z.
  - rewrite (Z2 eq_refl), (Z1 (leb_trans _ _ _ Hle H2z)). reflexivity.
  - destruct (ltb MAX_SLEEP_SECONDS s2) eqn:H2m.
    + rewrite (C2 eq_refl eq_refl). exact M1.
    + rewrite (K2 eq_refl eq_refl) in *.
      destruct (leb s1 zero) eqn:H1z.
      * rewrite (Z1 eq_refl).
        apply ltb_true_leb, leb_false_ltb; [exact N2 | reflexivity | exact H2z].
      * destruct (ltb MAX_SLEEP_SECONDS s1) eqn:H1m.
        -- pose proof (ltb_true_leb_false _ _ H1m) as Hc.
           rewrite (leb_trans _ _ _ Hle M2) in Hc. discriminate.
        -- rewrite (K1 eq_refl eq_refl). exact Hle.
Qed.

Lemma wait_monotone_witness :
  exists d1 d2,
    effective_wait (NormalizeSeconds quarter_second) = Some d1 /\
    effective_wait (NormalizeSeconds (of_int 7200)) = Some d2 /\
    leb d1 d2 = true.
Proof.
  apply (wait_monotone quarter_second (of_int 7200)); [discriminate | reflexivity].
Defined.

(** * Rows that do not wait *)

Lemma for_each_row_no_wait {A} (body : A -> Exec unit) (w : World) (rows : Column A) :
  Forall (fun r => match r with
                   | Some x => body x w = Some (Returned tt, w)
                   | None => True
                   end) rows ->
  for_each_row body rows w = Some (Returned tt, w).
Proof.
  induction rows as [|[x|] rows IH]; intros Hrows; cbn [for_each_row].
  - reflexivity.
  - inversion Hrows as [|? ? Hx Hrest]; subst. unfold bind. rewrite Hx.
    apply IH. exact Hrest.
  - inversion Hrows as [|? ? Hx Hrest]; subst. apply IH. exact Hrest.
Qed.

(** X10: rows that do not wait do not look at the interrupt flag.  A
    [sleep] batch whose non-NULL rows are all finite and [<= 0], and a
    [sleep_until] batch whose non-NULL rows are all the negative-infinity
    sentinel or targets not after the current timestamp (other than the
    positive-infinity sentinel, the distance fitting [int64_t]), return
    the constant NULL vector and leave the
    world untouched - for any fuel, and also when the interrupt flag is
    already set. *)
Theorem no_wait_rows_return (fuel : nat) (result : Vector) (w : World)
        (seconds : Column double) (timestamps : Column timestamp_t) :
  Forall (fun r => match r with
                   | Some x => is_finite x = true /\ leb x zero = true
                   | None => True
                   end) seconds ->
  Forall (fun r => match r with
                   | Some t =>
                       value t = INT64_MIN \/
                       (value t <> INT64_MAX /\
                        value t <= GetCurrentTimestamp w /\
                        int64_range (value t - GetCurrentTimestamp w))
                   | None => True
                   end) timestamps ->
  SleepFunction fuel seconds result w =
    Some (Returned (SetNull true (SetVectorType CONSTANT_VECTOR result)), w) /\
  SleepUntilFunction fuel timestamps result w =
    Some (Returned (SetNull true (SetVectorType CONSTANT_VECTOR result)), w).
Proof.
  intros Hs Ht. unfold SleepFunction, SleepUntilFunction.
  rewrite !return_null_after. split.
  - rewrite for_each_row_no_wait; [reflexivity|].
    eapply Forall_impl; [|exact Hs]. intros [x|] Hx; [|exact I].
    destruct Hx as [Hfin Hle]. apply PerformSleep_early.
    rewrite (NormalizeSeconds_finite x Hfin), Hle. reflexivity.
  - rewrite for_each_row_no_wait; [reflexivity|].
    eapply Forall_impl; [|exact Ht]. intros [t|] Hx; [|exact I].
    destruct Hx as [Hmin|(Hnmax & Hpast & Hr)].
    + unfold SleepUntil_row. rewrite Hmin. reflexivity.
    + unfold SleepUntil_row.
      destruct (value t =? INT64_MIN); [reflexivity|].
      destruct (value t =? INT64_MAX) eqn:Hmax.
      * apply Z.eqb_eq in Hmax. contradiction.
      * apply PerformSleep_early.
        rewrite NormalizeSeconds_finite by apply timestamp_seconds_finite.
        unfold sub64. rewrite (wrap64_exact _ Hr).
        rewrite (micros_to_seconds_nonpositive (value t - GetCurrentTimestamp w)
                   ltac:(lia)).
        reflexivity.
Qed.

Lemma no_wait_rows_return_witness :
  SleepFunction 0 [Some (of_int (-5)); None; Some (S754_zero true)] (fresh_vector 3)
    (mkWorld 0 1700000000000000 (Some 0) []) =
    Some (Returned (SetNull true (SetVectorType CONSTANT_VECTOR (fresh_vector 3))),
          mkWorld 0 1700000000000000 (Some 0) []) /\
  SleepUntilFunction 0 [Some (mkTimestamp INT64_MIN); Some (mkTimestamp 1600000000000000)]
    (fresh_vector 3) (mkWorld 0 1700000000000000 (Some 0) []) =
    Some (Returned (SetNull true (SetVectorType CONSTANT_VECTOR (fresh_vector 3))),
          mkWorld 0 1700000000000000 (Some 0) []).
Proof.
  apply (no_wait_rows_return 0 (fresh_vector 3) (mkWorld 0 1700000000000000 (Some 0) [])).
  - repeat constructor.
  - constructor; [left; reflexivity|].
    constructor; [|constructor].
    right. vm_compute. repeat split; discriminate.
Defined.

(** * One wait, three ways to ask for it *)

Lemma NormalizeSeconds_add_zero (c : double) :
  NormalizeSeconds (add zero c) = NormalizeSeconds c.
Proof. destruct c as [[]|[]| |[] m e]; reflexivity. Qed.

(** X11: an interval of microseconds only is the wait of that many
    microseconds.  With zero months and days, [sleep_for] makes the call
    [PerformSleep] makes for [micros / 1000000.0], whatever [micros];
    so [sleep_for] of [u] microseconds and [sleep_until] of a target [u]
    microseconds from the current timestamp (neither sentinel, [u]
    fitting [int64_t]) are the same call. *)
Theorem micros_interval_is_timestamp_distance (fuel : nat) (u : Z) (t : timestamp_t)
        (w : World) :
  value t <> INT64_MIN -> value t <> INT64_MAX ->
  int64_range u -> value t - GetCurrentTimestamp w = u ->
  PerformSleep fuel (interval_seconds (mkInterval 0 0 u)) w =
    PerformSleep fuel (div (of_int u) lit_1000000) w /\
  SleepUntil_row fuel t w =
    PerformSleep fuel (interval_seconds (mkInterval 0 0 u)) w.
Proof.
  intros Hmin Hmax Hr Hu.
  assert (H1 : PerformSleep fuel (interval_seconds (mkInterval 0 0 u)) w =
               PerformSleep fuel (div (of_int u) lit_1000000) w).
  { unfold PerformSleep, interval_seconds. cbn [months days micros].
    change (add (mul (of_int 0) lit_86400) (mul (of_int 0) lit_2592000)) with zero.
    rewrite NormalizeSeconds_add_zero. reflexivity. }
  split; [exact H1|]. rewrite H1.
  unfold SleepUntil_row. apply Z.eqb_neq in Hmin, Hmax. rewrite Hmin, Hmax.
  unfold sub64. rewrite Hu, (wrap64_exact _ Hr). reflexivity.
Qed.

Lemma micros_interval_is_timestamp_distance_witness :
  PerformSleep 5 (interval_seconds (mkInterval 0 0 250000))
    (mkWorld 0 1700000000000000 None []) =
    PerformSleep 5 (div (of_int 250000) lit_1000000)
      (mkWorld 0 1700000000000000 None []) /\
  SleepUntil_row 5 (mkTimestamp 1700000000250000) (mkWorld 0 1700000000000000 None []) =
    PerformSleep 5 (interval_seconds (mkInterval 0 0 250000))
      (mkWorld 0 1700000000000000 None []).
Proof.
  apply (micros_interval_is_timestamp_distance 5 250000 (mkTimestamp 1700000000250000)
           (mkWorld 0 1700000000000000 None [])).
  - vm_compute. discriminate.
  - vm_compute. discriminate.
  - vm_compute. split; discriminate.
  - vm_compute. reflexivity.
Defined.
